(** * DebtManagement: a shallow embedding of [contracts/Debt_FHE.sol]

    The contract keeps a mapping from debt identifiers to [DebtRecord]s and a
    parallel array of identifiers.  The amount of a debt is an [euint32], a
    handle on a ciphertext owned by the FHE backend; the contract only ever
    combines handles with the operations of the FHE library.

    The FHE library itself ([@fhevm/solidity]) is not part of the repository.
    Its two proof checks (the input verifier behind [FHE.fromExternal] and the
    signature check behind [FHE.checkSignatures]) are parameters of the
    development; its arithmetic on ciphertexts is kept symbolic. *)

From Stdlib Require Import ZArith Lia Bool List String QArith Qround.
From Stdlib.Strings Require Import Byte.
From stdpp Require Import gmap strings list.
Import ListNotations.

Local Open Scope Z_scope.

(** ** Value types of the contract *)

Definition address := Z.
Definition bytes := list byte.
Definition externalEuint32 := Z.

Definition UINT256_MAX : Z := 2 ^ 256 - 1.
Definition UINT32_MAX : Z := 2 ^ 32 - 1.

(** [uint32(x)]: an explicit narrowing conversion keeps the low 32 bits. *)
Definition uint32 (x : Z) : Z := x mod 2 ^ 32.

(** [euint32]: what the contract can build from encrypted values.  [Handle h]
    is a ciphertext admitted by the input verifier ([Handle 0] is the
    uninitialised handle, the zero value of the type); the other constructors
    are the operations of the FHE library that [calculateMonthlyPayment]
    applies.  There is no constructor that opens a ciphertext. *)
Inductive euint32 : Type :=
| Handle (h : Z)
| FHE_encrypt (v : Z)
| FHE_mul (a b : euint32)
| FHE_sub (a b : euint32)
| FHE_add (a b : euint32)
| FHE_exp (a b : euint32)
| FHE_div (a b : euint32).

(** [FHE.isInitialized]: the handle is not the zero handle. *)
Definition FHE_isInitialized (e : euint32) : bool :=
  match e with
  | Handle h => negb (h =? 0)
  | _ => true
  end.

Record DebtRecord : Type := mkDebtRecord {
  debtId : string;
  encryptedAmount : euint32;
  interestRate : Z;
  termMonths : Z;
  owner : address;
  creationDate : Z;
  decryptedAmount : Z;
  isVerified : bool
}.

(** The value a Solidity mapping yields for a key that was never written. *)
Definition zeroRecord : DebtRecord :=
  mkDebtRecord EmptyString (Handle 0) 0 0 0 0 0 false.

Inductive Event : Type :=
| DebtRecordCreated (id : string) (who : address)
| DebtVerification (id : string) (amount : Z).

(** Contract storage ([debtRecords], [debtIds]), the log of emitted events and
    the two access lists of the FHE backend that the contract writes to. *)
Record State : Type := mkState {
  debtRecords : gmap string DebtRecord;
  debtIds : list string;
  events : list Event;
  allowedThis : list euint32;
  publiclyDecryptable : list euint32
}.

Definition initState : State := mkState ∅ [] [] [] [].

(** [debtRecords[id]] as an r-value. *)
Definition recordAt (s : State) (id : string) : DebtRecord :=
  default zeroRecord (debtRecords s !! id).

(** [bytes(str).length] *)
Definition bytesLength (str : string) : Z := Z.of_nat (String.length str).

(** The transaction environment: [msg.sender] and [block.timestamp]. *)
Record Env : Type := mkEnv { msg_sender : address; block_timestamp : Z }.

(** ** Failures *)

Inductive Error : Type :=
| Revert (reason : string)        (* a failed [require] *)
| Panic (code : Z)                (* 0x11: checked arithmetic overflowed *)
| InvalidInputProof               (* [FHE.fromExternal] rejected the proof *)
| InvalidKMSSignatures            (* [FHE.checkSignatures] rejected the proof *)
| AbiDecodeFailure.               (* [abi.decode] rejected the bytes *)

Definition ERR_EXISTS : string := "Debt record already exists".
Definition ERR_INVALID_AMOUNT : string := "Invalid encrypted amount".
Definition ERR_MISSING : string := "Debt record does not exist".
Definition ERR_VERIFIED : string := "Debt already verified".

(** ** Proof checks performed by the backend

    Every call of one of the two proof checks is recorded, also when the
    transaction later reverts, so that "no proof was checked" can be stated. *)
Inductive ProofCheck : Type :=
| InputProofCheck (sender : address) (ext : externalEuint32) (proof : bytes)
| SignatureCheck (cts : list euint32) (cleartexts : bytes) (proof : bytes).

(** ** The execution monad: storage, failure, and the list of proof checks *)

Definition M (A : Type) : Type :=
  State -> list ProofCheck * (Error + A * State).

Definition ret {A} (a : A) : M A := fun s => ([], inr (a, s)).

Definition bind {A B} (m : M A) (f : A -> M B) : M B :=
  fun s =>
    match m s with
    | (t, inl e) => (t, inl e)
    | (t, inr (a, s')) =>
        let '(t', r) := f a s' in (t ++ t', r)
    end.

Definition fail {A} (e : Error) : M A := fun _ => ([], inl e).

Definition require (c : bool) (reason : string) : M unit :=
  if c then ret tt else fail (Revert reason).

Definition getState : M State := fun s => ([], inr (s, s)).
Definition putState (s : State) : M unit := fun _ => ([], inr (tt, s)).

Notation "'do' x <- m ; k" := (bind m (fun x => k))
  (at level 10, x name, m at level 100, k at level 200,
   format "'[v' 'do'  x  <-  m ; '/' k ']'").

(** [a * b] on [uint256], checked as Solidity 0.8 does. *)
Definition checkedMul (a b : Z) : M Z :=
  if a * b <=? UINT256_MAX then ret (a * b) else fail (Panic 17).

(** Storage accessors. *)
Definition readRecord (id : string) : M DebtRecord :=
  do s <- getState; ret (recordAt s id).

Definition writeRecord (id : string) (r : DebtRecord) : M unit :=
  do s <- getState;
  putState (mkState (<[id := r]> (debtRecords s)) (debtIds s) (events s)
                    (allowedThis s) (publiclyDecryptable s)).

Definition pushDebtId (id : string) : M unit :=
  do s <- getState;
  putState (mkState (debtRecords s) (debtIds s ++ [id]) (events s)
                    (allowedThis s) (publiclyDecryptable s)).

Definition emit (ev : Event) : M unit :=
  do s <- getState;
  putState (mkState (debtRecords s) (debtIds s) (events s ++ [ev])
                    (allowedThis s) (publiclyDecryptable s)).

Definition FHE_allowThis (e : euint32) : M unit :=
  do s <- getState;
  putState (mkState (debtRecords s) (debtIds s) (events s)
                    (allowedThis s ++ [e]) (publiclyDecryptable s)).

Definition FHE_makePubliclyDecryptable (e : euint32) : M unit :=
  do s <- getState;
  putState (mkState (debtRecords s) (debtIds s) (events s)
                    (allowedThis s) (publiclyDecryptable s ++ [e])).

(** [abi.decode(data, (uint32))]: the first 32-byte word, read big-endian,
    must exist and must fit in 32 bits; bytes after it are ignored. *)
Definition wordOfBytes (bs : bytes) : Z :=
  fold_left (fun acc b => acc * 256 + Z.of_N (Byte.to_N b)) bs 0.

Definition abiDecodeUint32 (data : bytes) : option Z :=
  if (length data <? 32)%nat then None
  else
    let w := wordOfBytes (firstn 32 data) in
    if w <=? UINT32_MAX then Some w else None.

Definition abi_decode_uint32 (data : bytes) : M Z :=
  match abiDecodeUint32 data with
  | Some v => ret v
  | None => fail AbiDecodeFailure
  end.

(** ** The contract *)

Module DebtManagement.

Section Contract.

(** The input verifier behind [FHE.fromExternal]: the handle it admits for
    the caller, or [None] when it rejects the proof and reverts. *)
Variable inputVerifier : address -> externalEuint32 -> bytes -> option Z.

(** The check behind [FHE.checkSignatures]: do the signatures of the
    decryption committee bind these cleartexts to these handles? *)
Variable kmsVerifier : list euint32 -> bytes -> bytes -> bool.

Definition FHE_fromExternal (env : Env) (ext : externalEuint32)
    (inputProof : bytes) : M euint32 :=
  fun s =>
    ([InputProofCheck (msg_sender env) ext inputProof],
     match inputVerifier (msg_sender env) ext inputProof with
     | Some h => inr (Handle h, s)
     | None => inl InvalidInputProof
     end).

Definition FHE_checkSignatures (cts : list euint32) (cleartexts : bytes)
    (decryptionProof : bytes) : M unit :=
  fun s =>
    ([SignatureCheck cts cleartexts decryptionProof],
     if kmsVerifier cts cleartexts decryptionProof
     then inr (tt, s)
     else inl InvalidKMSSignatures).

(** In the functions below [id] is the source's parameter [debtId]; the
    name [debtId] is the field of the record. *)

Definition createDebtRecord (env : Env) (id : string)
    (ext : externalEuint32) (inputProof : bytes)
    (rate months : Z) : M unit :=
  do r <- readRecord id;
  do _ <- require (bytesLength (debtId r) =? 0) ERR_EXISTS;
  do e <- FHE_fromExternal env ext inputProof;
  do _ <- require (FHE_isInitialized e) ERR_INVALID_AMOUNT;
  do e' <- FHE_fromExternal env ext inputProof;
  do _ <- writeRecord id
            {| debtId := id;
               encryptedAmount := e';
               interestRate := rate;
               termMonths := months;
               owner := msg_sender env;
               creationDate := block_timestamp env;
               decryptedAmount := 0;
               isVerified := false |};
  do r1 <- readRecord id;
  do _ <- FHE_allowThis (encryptedAmount r1);
  do r2 <- readRecord id;
  do _ <- FHE_makePubliclyDecryptable (encryptedAmount r2);
  do _ <- pushDebtId id;
  emit (DebtRecordCreated id (msg_sender env)).

Definition verifyDebtAmount (id : string) (abiEncodedClearAmount : bytes)
    (decryptionProof : bytes) : M unit :=
  do r <- readRecord id;
  do _ <- require (0 <? bytesLength (debtId r)) ERR_MISSING;
  do r0 <- readRecord id;
  do _ <- require (negb (isVerified r0)) ERR_VERIFIED;
  do r1 <- readRecord id;
  let cts := [encryptedAmount r1] in
  do _ <- FHE_checkSignatures cts abiEncodedClearAmount decryptionProof;
  do decodedAmount <- abi_decode_uint32 abiEncodedClearAmount;
  do r2 <- readRecord id;
  do _ <- writeRecord id
            {| debtId := debtId r2;
               encryptedAmount := encryptedAmount r2;
               interestRate := interestRate r2;
               termMonths := termMonths r2;
               owner := owner r2;
               creationDate := creationDate r2;
               decryptedAmount := decodedAmount;
               isVerified := isVerified r2 |};
  do r3 <- readRecord id;
  do _ <- writeRecord id
            {| debtId := debtId r3;
               encryptedAmount := encryptedAmount r3;
               interestRate := interestRate r3;
               termMonths := termMonths r3;
               owner := owner r3;
               creationDate := creationDate r3;
               decryptedAmount := decryptedAmount r3;
               isVerified := true |};
  emit (DebtVerification id decodedAmount).

Definition calculateMonthlyPayment (id : string) : M euint32 :=
  do r <- readRecord id;
  do _ <- require (0 <? bytesLength (debtId r)) ERR_MISSING;
  do r0 <- readRecord id;
  let monthlyRate := interestRate r0 / 12 in
  do r1 <- readRecord id;
  let months := termMonths r1 in
  do scaledRate <- checkedMul monthlyRate 1000;
  let fixedRate := uint32 scaledRate in
  do scaledMonths <- checkedMul months 1000;
  let fixedMonths := uint32 scaledMonths in
  let rateFactor := FHE_encrypt fixedRate in
  let monthFactor := FHE_encrypt fixedMonths in
  do r2 <- readRecord id;
  let numerator := FHE_mul (encryptedAmount r2) rateFactor in
  let denominator :=
    FHE_sub (FHE_encrypt 1000)
            (FHE_exp (FHE_add (FHE_encrypt 1000) rateFactor)
                     (FHE_sub (FHE_encrypt 0) monthFactor)) in
  ret (FHE_div numerator denominator).

(** The tuple [getDebtRecord] returns: id, rate, term, owner, creation
    date, verified flag, decrypted amount. *)
Definition RecordView : Type :=
  (string * Z * Z * address * Z * bool * Z)%type.

Definition getDebtRecord (id : string) : M RecordView :=
  do r <- readRecord id;
  do _ <- require (0 <? bytesLength (debtId r)) ERR_MISSING;
  do record <- readRecord id;
  ret (debtId record, interestRate record, termMonths record,
       owner record, creationDate record, isVerified record,
       decryptedAmount record).

Definition getAllDebtIds : M (list string) :=
  do s <- getState; ret (debtIds s).

Definition isAvailable : M bool := ret true.

(** ** Transactions and reachable states

    A call of one of the external functions.  The [uint256] arguments are
    integers; no property below needs them to be in range, so none assumes
    it. *)

Inductive Call : Type :=
| CreateDebtRecord (env : Env) (id : string) (ext : externalEuint32)
    (inputProof : bytes) (rate months : Z)
| VerifyDebtAmount (id : string) (abiEncodedClearAmount : bytes)
    (decryptionProof : bytes)
| CalculateMonthlyPayment (id : string)
| GetDebtRecord (id : string)
| GetAllDebtIds
| IsAvailable.

Definition discard {A} (m : M A) : M unit := do _ <- m; ret tt.

Definition body (c : Call) : M unit :=
  match c with
  | CreateDebtRecord env id ext p rate months =>
      createDebtRecord env id ext p rate months
  | VerifyDebtAmount id clear p => verifyDebtAmount id clear p
  | CalculateMonthlyPayment id => discard (calculateMonthlyPayment id)
  | GetDebtRecord id => discard (getDebtRecord id)
  | GetAllDebtIds => discard getAllDebtIds
  | IsAvailable => discard isAvailable
  end.

(** The state a call leaves behind: its final state when it returns, the
    state it started from when it reverts. *)
Definition commit {A} (m : M A) (s : State) : State :=
  match snd (m s) with
  | inr (_, s') => s'
  | inl _ => s
  end.

Definition succeeds {A} (m : M A) (s : State) : bool :=
  match snd (m s) with
  | inr _ => true
  | inl _ => false
  end.

Definition step (s : State) (c : Call) : State := commit (body c) s.

Definition runCalls (cs : list Call) (s : State) : State :=
  fold_left step cs s.

Definition reachable (s : State) : Prop :=
  exists cs, s = runCalls cs initState.

(** The identifiers of the [createDebtRecord] calls of [cs] that return,
    in the order of the calls, when [cs] runs from [s]. *)
Fixpoint createdIds (cs : list Call) (s : State) : list string :=
  match cs with
  | [] => []
  | c :: cs' =>
      match c with
      | CreateDebtRecord _ id _ _ _ _ =>
          if succeeds (body c) s then [id] else []
      | _ => []
      end ++ createdIds cs' (step s c)
  end.

End Contract.

End DebtManagement.

Import DebtManagement.

(** What a call hands back to its caller, without the final state. *)
Definition returned {A} (m : M A) (s : State) : Error + A :=
  match snd (m s) with
  | inr (a, _) => inr a
  | inl e => inl e
  end.

(** The proof checks a call performs. *)
Definition proofChecks {A} (m : M A) (s : State) : list ProofCheck :=
  fst (m s).

(** ** States and values the functions produce *)

(** Does the contract regard [id] as the key of a record? *)
Definition recordExists (s : State) (id : string) : bool :=
  0 <? bytesLength (debtId (recordAt s id)).

Definition createdRecord (env : Env) (id : string) (h : Z)
    (rate months : Z) : DebtRecord :=
  mkDebtRecord id (Handle h) rate months (msg_sender env)
               (block_timestamp env) 0 false.

Definition afterCreate (env : Env) (id : string) (h : Z)
    (rate months : Z) (s : State) : State :=
  mkState (<[id := createdRecord env id h rate months]> (debtRecords s))
          (debtIds s ++ [id])
          (events s ++ [DebtRecordCreated id (msg_sender env)])
          (allowedThis s ++ [Handle h])
          (publiclyDecryptable s ++ [Handle h]).

Definition verifiedRecord (r : DebtRecord) (v : Z) : DebtRecord :=
  mkDebtRecord (debtId r) (encryptedAmount r) (interestRate r)
               (termMonths r) (owner r) (creationDate r) v true.

Definition afterVerify (id : string) (v : Z) (s : State) : State :=
  mkState (<[id := verifiedRecord (recordAt s id) v]> (debtRecords s))
          (debtIds s)
          (events s ++ [DebtVerification id v])
          (allowedThis s)
          (publiclyDecryptable s).

(** The ciphertext expression the amortization formula builds from the
    stored amount and the two scaled public parameters. *)
Definition paymentExpr (amount : euint32) (fixedRate fixedMonths : Z)
    : euint32 :=
  FHE_div
    (FHE_mul amount (FHE_encrypt fixedRate))
    (FHE_sub (FHE_encrypt 1000)
             (FHE_exp (FHE_add (FHE_encrypt 1000) (FHE_encrypt fixedRate))
                      (FHE_sub (FHE_encrypt 0) (FHE_encrypt fixedMonths)))).

Definition viewOf (r : DebtRecord) : RecordView :=
  (debtId r, interestRate r, termMonths r, owner r, creationDate r,
   isVerified r, decryptedAmount r).

(** The fields of a record that are written at creation only. *)
Definition immutablePart (r : DebtRecord)
    : string * euint32 * Z * Z * address * Z :=
  (debtId r, encryptedAmount r, interestRate r, termMonths r, owner r,
   creationDate r).

(** ** Invariant of the storage

    Every stored record sits under its own identifier, a verified record has
    a non-empty identifier, and a non-empty identifier is listed in [debtIds]
    once if the contract regards it as the key of a record and not at all
    otherwise. *)
Definition storageInv (s : State) : Prop :=
  (forall k r, debtRecords s !! k = Some r -> debtId r = k) /\
  (forall k r, debtRecords s !! k = Some r ->
               isVerified r = true -> k <> EmptyString) /\
  (forall k, k <> EmptyString ->
             count_occ string_dec (debtIds s) k =
             if recordExists s k then 1%nat else 0%nat).

(** ** The amortization formula in the words of the specification

    [rateFixed = round((interestRateAnnual / 12) * 1000)],
    [termFixed = round(termMonths * 1000)], numerator the encrypted principal
    times [rateFixed], denominator [1000 - (1 + rateFixed)^(-termFixed)]. *)
Definition roundQ (x : Q) : Z := Qfloor (x + (1 # 2))%Q.

Definition spec_rateFixed (interestRateAnnual : Z) : Z :=
  roundQ ((inject_Z interestRateAnnual / 12) * 1000)%Q.

Definition spec_termFixed (months : Z) : Z :=
  roundQ (inject_Z months * 1000)%Q.

Definition spec_monthlyPayment (r : DebtRecord) : euint32 :=
  let rateFixed := spec_rateFixed (interestRate r) in
  let termFixed := spec_termFixed (termMonths r) in
  let numerator := FHE_mul (encryptedAmount r) (FHE_encrypt rateFixed) in
  let denominator :=
    FHE_sub (FHE_encrypt 1000)
            (FHE_exp (FHE_add (FHE_encrypt 1) (FHE_encrypt rateFixed))
                     (FHE_sub (FHE_encrypt 0) (FHE_encrypt termFixed))) in
  FHE_div numerator denominator.

(** ** [abi.encode] of one unsigned integer: 32 bytes, big-endian *)

Definition byteOfZ (z : Z) : byte :=
  match Byte.of_N (Z.to_N z) with
  | Some b => b
  | None => x00
  end.

Fixpoint bytesOfWord (n : nat) (v : Z) : bytes :=
  match n with
  | O => []
  | S n' => bytesOfWord n' (v / 256) ++ [byteOfZ (v mod 256)]
  end.

Definition abiEncodeUint (v : Z) : bytes := bytesOfWord 32 v.

(** ** A backend that accepts every proof, and sample transactions *)

Module Sample.

(** Admits the external handle itself, whatever the proof. *)
Definition admitAll (_ : address) (ext : externalEuint32) (_ : bytes)
    : option Z := Some ext.

Definition signAll (_ : list euint32) (_ _ : bytes) : bool := true.
Definition signNone (_ : list euint32) (_ _ : bytes) : bool := false.

Definition alice : Env := mkEnv 161 1700000000.
Definition bob : Env := mkEnv 177 1700000600.

Definition d1 : string := "d1".
Definition noProof : bytes := [].

(** [createRecord("d1", cipher, proof, 12, 24)] on the empty ledger. *)
Definition createD1 : Call := CreateDebtRecord alice d1 41 noProof 12 24.
Definition ledgerD1 : State := step admitAll signAll initState createD1.

(** ... followed by [verifyAmount("d1", 1000, proof)]. *)
Definition verifyD1 : Call :=
  VerifyDebtAmount d1 (abiEncodeUint 1000) noProof.
Definition ledgerD1Verified : State :=
  step admitAll signAll ledgerD1 verifyD1.

(** Two creations under the empty identifier, with different handles. *)
Definition createEmpty1 : Call :=
  CreateDebtRecord alice EmptyString 7 noProof 12 24.
Definition createEmpty2 : Call :=
  CreateDebtRecord bob EmptyString 9 noProof 6 36.
Definition ledgerEmpty1 : State :=
  step admitAll signAll initState createEmpty1.
Definition ledgerEmpty2 : State :=
  step admitAll signAll ledgerEmpty1 createEmpty2.

(** A record whose term, scaled by 1000, no longer fits in 32 bits. *)
Definition longTerm : string := "long".
Definition createLong : Call :=
  CreateDebtRecord alice longTerm 43 noProof 18 4294968.
Definition ledgerLong : State :=
  step admitAll signAll initState createLong.

(** A record whose term, scaled by 1000, no longer fits in 256 bits. *)
Definition hugeTerm : string := "huge".
Definition createHuge : Call :=
  CreateDebtRecord alice hugeTerm 45 noProof 12 (2 ^ 250).
Definition ledgerHuge : State :=
  step admitAll signAll initState createHuge.

(** Creating "a", "b", "c" with verifications in between. *)
Definition abcCalls : list Call :=
  [ CreateDebtRecord alice "a" 1 noProof 12 24;
    VerifyDebtAmount "a" (abiEncodeUint 5) noProof;
    CreateDebtRecord bob "b" 2 noProof 6 12;
    CreateDebtRecord alice "c" 3 noProof 9 48;
    VerifyDebtAmount "c" (abiEncodeUint 7) noProof;
    GetAllDebtIds;
    VerifyDebtAmount "b" (abiEncodeUint 6) noProof ].

(** "d1", "d2" and "d3" created, only "d1" verified; "d2" has rate 19 and
    a term that is 2^29 months longer than that of "d1"; "d3" has rate 5. *)
Definition d2 : string := "d2".
Definition d3 : string := "d3".
Definition createD2 : Call :=
  CreateDebtRecord bob d2 42 noProof 19 (24 + 2 ^ 29).
Definition createD3 : Call := CreateDebtRecord bob d3 44 noProof 5 12.
Definition ledgerTwo : State :=
  step admitAll signAll ledgerD1Verified createD2.
Definition ledgerThree : State := step admitAll signAll ledgerTwo createD3.

End Sample.

(** ** The getters the compiler generates for the public state variables

    [string[] public debtIds] is read by index, with the bounds check of the
    array access (panic 0x32); [mapping(string => DebtRecord) public
    debtRecords] returns every field of the stored struct and has no
    existence check. *)


Definition FullRecordView : Type :=
  (string * euint32 * Z * Z * address * Z * Z * bool)%type.

Definition public_debtRecords (id : string) : M FullRecordView :=
  do r <- readRecord id;
  ret (debtId r, encryptedAmount r, interestRate r, termMonths r, owner r,
       creationDate r, decryptedAmount r, isVerified r).

(** ** Reading the event log *)

(** The identifiers of the [DebtRecordCreated] events, in log order. *)
Definition createdEventIds (evs : list Event) : list string :=
  flat_map (fun ev => match ev with
                      | DebtRecordCreated id _ => [id]
                      | DebtVerification _ _ => []
                      end) evs.

(** The amounts disclosed for [k] by [DebtVerification] events, in log
    order. *)
Definition disclosuresOf (k : string) (evs : list Event) : list Z :=
  flat_map (fun ev => match ev with
                      | DebtVerification id v =>
                          if String.eqb id k then [v] else []
                      | DebtRecordCreated _ _ => []
                      end) evs.

(** ** A second invariant, on amounts, handles and events

    Every stored record holds an initialised handle that the contract may use
    and that is publicly decryptable; its decrypted amount fits in 32 bits
    and is 0 as long as it is not verified; the creation events list the
    identifiers as [debtIds] does; and the disclosures logged for an
    identifier are the one committed amount if its record is verified, none
    otherwise. *)
Definition ledgerInv (s : State) : Prop :=
  (forall k r, debtRecords s !! k = Some r ->
     exists h, encryptedAmount r = Handle h /\ h <> 0
               /\ In (Handle h) (allowedThis s)
               /\ In (Handle h) (publiclyDecryptable s)) /\
  (forall k r, debtRecords s !! k = Some r ->
     0 <= decryptedAmount r <= UINT32_MAX
     /\ (isVerified r = false -> decryptedAmount r = 0)) /\
  createdEventIds (events s) = debtIds s /\
  (forall k, disclosuresOf k (events s)
             = if isVerified (recordAt s k)
               then [decryptedAmount (recordAt s k)] else []).

(** A state extends another when each of its four logs continues the
    other's. *)
Definition extends (s' s : State) : Prop :=
  (exists l, debtIds s' = debtIds s ++ l)
  /\ (exists l, events s' = events s ++ l)
  /\ (exists l, allowedThis s' = allowedThis s ++ l)
  /\ (exists l, publiclyDecryptable s' = publiclyDecryptable s ++ l).

(** ** What each function computes, in closed form *)

Section Evaluation.

Variable inputVerifier : address -> externalEuint32 -> bytes -> option Z.
Variable kmsVerifier : list euint32 -> bytes -> bytes -> bool.

Lemma bytesLength_zero (str : string) :
  (bytesLength str =? 0) = true <-> str = EmptyString.
Proof.
  unfold bytesLength. destruct str; simpl; split; intros H;
    try reflexivity; try discriminate.
Qed.

Lemma bytesLength_pos (str : string) :
  (0 <? bytesLength str) = true <-> str <> EmptyString.
Proof.
  unfold bytesLength. destruct str; simpl; split; intros H;
    try congruence; try discriminate; try reflexivity.
Qed.

Lemma bytesLength_pos_zero (str : string) :
  (0 <? bytesLength str) = negb (bytesLength str =? 0).
Proof. unfold bytesLength. destruct str; reflexivity. Qed.

Lemma createDebtRecord_eval env id ext p rate months s :
  createDebtRecord inputVerifier env id ext p rate months s =
  let check := InputProofCheck (msg_sender env) ext p in
  if recordExists s id then ([], inl (Revert ERR_EXISTS))
  else
    match inputVerifier (msg_sender env) ext p with
    | None => ([check], inl InvalidInputProof)
    | Some h =>
        if h =? 0 then ([check], inl (Revert ERR_INVALID_AMOUNT))
        else ([check; check], inr (tt, afterCreate env id h rate months s))
    end.
Proof.
  unfold recordExists. rewrite bytesLength_pos_zero.
  unfold createDebtRecord, bind at 1. unfold readRecord at 1.
  unfold bind at 1. simpl.
  destruct (bytesLength (debtId (recordAt s id)) =? 0); simpl; [|reflexivity].
  unfold bind, FHE_fromExternal; simpl.
  destruct (inputVerifier (msg_sender env) ext p) as [h|]; simpl; [|reflexivity].
  destruct (h =? 0); simpl; [reflexivity|].
  unfold afterCreate, createdRecord, recordAt; simpl.
  rewrite lookup_insert_eq; reflexivity.
Qed.

Lemma verifyDebtAmount_eval id clear p s :
  verifyDebtAmount kmsVerifier id clear p s =
  let check := SignatureCheck [encryptedAmount (recordAt s id)] clear p in
  if negb (recordExists s id) then ([], inl (Revert ERR_MISSING))
  else if isVerified (recordAt s id) then ([], inl (Revert ERR_VERIFIED))
  else if kmsVerifier [encryptedAmount (recordAt s id)] clear p then
    match abiDecodeUint32 clear with
    | Some v => ([check], inr (tt, afterVerify id v s))
    | None => ([check], inl AbiDecodeFailure)
    end
  else ([check], inl InvalidKMSSignatures).
Proof.
  unfold recordExists.
  unfold verifyDebtAmount, bind at 1. unfold readRecord at 1.
  unfold bind at 1. simpl.
  destruct (0 <? bytesLength (debtId (recordAt s id))); simpl; [|reflexivity].
  unfold bind at 1. unfold readRecord at 1. unfold bind at 1. simpl.
  destruct (isVerified (recordAt s id)) eqn:Hv; simpl; [reflexivity|].
  unfold bind, FHE_checkSignatures, abi_decode_uint32; simpl.
  destruct (kmsVerifier [encryptedAmount (recordAt s id)] clear p); simpl;
    [|reflexivity].
  destruct (abiDecodeUint32 clear) as [v|]; simpl; [|reflexivity].
  unfold afterVerify, verifiedRecord, recordAt; simpl.
  rewrite !lookup_insert_eq; simpl. rewrite insert_insert_eq.
  reflexivity.
Qed.

Lemma calculateMonthlyPayment_eval id s :
  calculateMonthlyPayment id s =
  let r := recordAt s id in
  if negb (recordExists s id) then ([], inl (Revert ERR_MISSING))
  else if interestRate r / 12 * 1000 <=? UINT256_MAX then
    if termMonths r * 1000 <=? UINT256_MAX then
      ([], inr (paymentExpr (encryptedAmount r)
                            (uint32 (interestRate r / 12 * 1000))
                            (uint32 (termMonths r * 1000)), s))
    else ([], inl (Panic 17))
  else ([], inl (Panic 17)).
Proof.
  unfold recordExists.
  unfold calculateMonthlyPayment, bind at 1. unfold readRecord at 1.
  unfold bind at 1. simpl.
  destruct (0 <? bytesLength (debtId (recordAt s id))); simpl; [|reflexivity].
  unfold bind, checkedMul; simpl.
  destruct (interestRate (recordAt s id) / 12 * 1000 <=? UINT256_MAX); simpl;
    [|reflexivity].
  destruct (termMonths (recordAt s id) * 1000 <=? UINT256_MAX); simpl;
    reflexivity.
Qed.

Lemma getDebtRecord_eval id s :
  getDebtRecord id s =
  if recordExists s id then ([], inr (viewOf (recordAt s id), s))
  else ([], inl (Revert ERR_MISSING)).
Proof.
  unfold recordExists, getDebtRecord, bind, readRecord; simpl.
  destruct (0 <? bytesLength (debtId (recordAt s id))); reflexivity.
Qed.

Lemma getAllDebtIds_eval s : getAllDebtIds s = ([], inr (debtIds s, s)).
Proof. reflexivity. Qed.

(** *** Reading the mapping after a write *)

Lemma recordExists_nonempty s id :
  recordExists s id = true <-> debtId (recordAt s id) <> EmptyString.
Proof. apply bytesLength_pos. Qed.

Lemma recordExists_empty s id :
  recordExists s id = false <-> debtId (recordAt s id) = EmptyString.
Proof.
  unfold recordExists. rewrite bytesLength_pos_zero, negb_false_iff.
  apply bytesLength_zero.
Qed.

Lemma recordExists_stored s id :
  recordExists s id = true ->
  debtRecords s !! id = Some (recordAt s id).
Proof.
  rewrite recordExists_nonempty. unfold recordAt.
  destruct (debtRecords s !! id); simpl; [reflexivity | congruence].
Qed.

Lemma recordAt_afterCreate_eq env id h rate months s :
  recordAt (afterCreate env id h rate months s) id =
  createdRecord env id h rate months.
Proof. unfold recordAt, afterCreate; simpl. by rewrite lookup_insert_eq. Qed.

Lemma recordAt_afterCreate_ne env id h rate months s k :
  id <> k ->
  recordAt (afterCreate env id h rate months s) k = recordAt s k.
Proof.
  intros Hne. unfold recordAt, afterCreate; simpl.
  by rewrite lookup_insert_ne.
Qed.

Lemma recordAt_afterVerify_eq id v s :
  recordAt (afterVerify id v s) id = verifiedRecord (recordAt s id) v.
Proof. unfold recordAt at 1, afterVerify; simpl. by rewrite lookup_insert_eq. Qed.

Lemma recordAt_afterVerify_ne id v s k :
  id <> k -> recordAt (afterVerify id v s) k = recordAt s k.
Proof.
  intros Hne. unfold recordAt, afterVerify; simpl.
  by rewrite lookup_insert_ne.
Qed.

Lemma recordExists_afterVerify id v s k :
  recordExists (afterVerify id v s) k = recordExists s k.
Proof.
  unfold recordExists. destruct (decide (id = k)) as [->|Hne].
  - by rewrite recordAt_afterVerify_eq.
  - by rewrite recordAt_afterVerify_ne.
Qed.

(** *** The state a call leaves behind *)

Local Abbreviation step := (step inputVerifier kmsVerifier).
Local Abbreviation runCalls := (runCalls inputVerifier kmsVerifier).
Local Abbreviation reachable := (reachable inputVerifier kmsVerifier).

Lemma step_create env id ext p rate months s :
  step s (CreateDebtRecord env id ext p rate months) =
  if recordExists s id then s
  else match inputVerifier (msg_sender env) ext p with
       | None => s
       | Some h => if h =? 0 then s else afterCreate env id h rate months s
       end.
Proof.
  unfold DebtManagement.step, commit; simpl. rewrite createDebtRecord_eval; simpl.
  destruct (recordExists s id); simpl; [reflexivity|].
  destruct (inputVerifier (msg_sender env) ext p) as [h|]; simpl;
    [|reflexivity].
  destruct (h =? 0); reflexivity.
Qed.

Lemma step_verify id clear p s :
  step s (VerifyDebtAmount id clear p) =
  if recordExists s id && negb (isVerified (recordAt s id))
     && kmsVerifier [encryptedAmount (recordAt s id)] clear p
  then match abiDecodeUint32 clear with
       | Some v => afterVerify id v s
       | None => s
       end
  else s.
Proof.
  unfold DebtManagement.step, commit; simpl. rewrite verifyDebtAmount_eval; simpl.
  destruct (recordExists s id); simpl; [|reflexivity].
  destruct (isVerified (recordAt s id)); simpl; [reflexivity|].
  destruct (kmsVerifier [encryptedAmount (recordAt s id)] clear p); simpl;
    [|reflexivity].
  destruct (abiDecodeUint32 clear); reflexivity.
Qed.

Lemma step_calculateMonthlyPayment id s :
  step s (CalculateMonthlyPayment id) = s.
Proof.
  unfold DebtManagement.step, commit, body, discard, bind.
  rewrite calculateMonthlyPayment_eval; simpl.
  destruct (recordExists s id); simpl; [|reflexivity].
  destruct (_ <=? _); simpl; [|reflexivity].
  destruct (_ <=? _); reflexivity.
Qed.

Lemma step_getDebtRecord id s : step s (GetDebtRecord id) = s.
Proof.
  unfold DebtManagement.step, commit, body, discard, bind.
  rewrite getDebtRecord_eval.
  destruct (recordExists s id); reflexivity.
Qed.

Lemma step_getAllDebtIds s : step s GetAllDebtIds = s.
Proof. reflexivity. Qed.

Lemma step_isAvailable s : step s IsAvailable = s.
Proof. reflexivity. Qed.

(** Every call either leaves the state alone, or is a creation under an
    identifier the contract does not regard as taken, or is the
    verification of a record that exists and is not verified yet. *)
Lemma step_cases s c :
  step s c = s
  \/ (exists env id h rate months,
        recordExists s id = false /\ h <> 0 /\
        step s c = afterCreate env id h rate months s)
  \/ (exists id v,
        recordExists s id = true /\ isVerified (recordAt s id) = false /\
        step s c = afterVerify id v s).
Proof.
  destruct c as [env id ext p rate months|id clear p|id|id| |].
  - rewrite step_create.
    destruct (recordExists s id) eqn:Hex; [by left|].
    destruct (inputVerifier (msg_sender env) ext p) as [h|]; [|by left].
    destruct (h =? 0) eqn:Hz; [by left|].
    right; left. exists env, id, h, rate, months.
    apply Z.eqb_neq in Hz. done.
  - rewrite step_verify.
    destruct (recordExists s id) eqn:Hex; simpl; [|by left].
    destruct (isVerified (recordAt s id)) eqn:Hv; simpl; [by left|].
    destruct (kmsVerifier _ clear p); [|by left].
    destruct (abiDecodeUint32 clear) as [v|]; [|by left].
    right; right. by exists id, v.
  - left. apply step_calculateMonthlyPayment.
  - left. apply step_getDebtRecord.
  - by left.
  - by left.
Qed.

End Evaluation.

(** Case analysis on what a call did to the state, naming the hypotheses of
    the two cases that change it. *)
Ltac step_inversion iv kv s c :=
  destruct (step_cases iv kv s c)
    as [-> | [(?env & ?id & ?h & ?rate & ?months & ?Hfree & ?Hnz & ->)
             | (?id & ?v & ?Hex & ?Hnv & ->)]].

(** ** The storage invariant holds in every reachable state *)

Section Invariants.

Variable inputVerifier : address -> externalEuint32 -> bytes -> option Z.
Variable kmsVerifier : list euint32 -> bytes -> bytes -> bool.

Local Abbreviation step := (step inputVerifier kmsVerifier).
Local Abbreviation runCalls := (runCalls inputVerifier kmsVerifier).
Local Abbreviation reachable := (reachable inputVerifier kmsVerifier).

Lemma storageInv_init : storageInv initState.
Proof.
  repeat split.
  - intros k r H. simpl in H. by rewrite lookup_empty in H.
  - intros k r H. simpl in H. by rewrite lookup_empty in H.
Qed.

Lemma storageInv_afterCreate env id h rate months s :
  recordExists s id = false ->
  storageInv s -> storageInv (afterCreate env id h rate months s).
Proof.
  intros Hfree (Hkey & Hver & Hcount). repeat split.
  - intros k r. unfold afterCreate; simpl. rewrite lookup_insert.
    case_decide as Hk.
    + intros [= <-]. by subst.
    + apply Hkey.
  - intros k r. unfold afterCreate; simpl. rewrite lookup_insert.
    case_decide as Hk.
    + intros [= <-]. discriminate.
    + apply Hver.
  - intros k Hk. simpl. rewrite count_occ_app; simpl.
    destruct (string_dec id k) as [->|Hne].
    + rewrite (Hcount k Hk), Hfree.
      unfold recordExists. rewrite recordAt_afterCreate_eq; simpl.
      apply bytesLength_pos in Hk. by rewrite Hk.
    + rewrite (Hcount k Hk). unfold recordExists.
      rewrite recordAt_afterCreate_ne by done. lia.
Qed.

Lemma storageInv_afterVerify id v s :
  recordExists s id = true ->
  storageInv s -> storageInv (afterVerify id v s).
Proof.
  intros Hex (Hkey & Hver & Hcount).
  pose proof (recordExists_stored _ _ Hex) as Hst.
  pose proof (Hkey _ _ Hst) as Hid.
  repeat split.
  - intros k r. unfold afterVerify; simpl. rewrite lookup_insert.
    case_decide as Hk.
    + intros [= <-]. by subst.
    + apply Hkey.
  - intros k r. unfold afterVerify; simpl. rewrite lookup_insert.
    case_decide as Hk.
    + intros _ _. subst k. apply recordExists_nonempty in Hex. congruence.
    + apply Hver.
  - intros k Hk. simpl. rewrite recordExists_afterVerify. by apply Hcount.
Qed.

Lemma storageInv_step s c : storageInv s -> storageInv (step s c).
Proof.
  intros Hinv. step_inversion inputVerifier kmsVerifier s c.
  - done.
  - by apply storageInv_afterCreate.
  - by apply storageInv_afterVerify.
Qed.

Lemma storageInv_runCalls cs s : storageInv s -> storageInv (runCalls cs s).
Proof.
  revert s. induction cs as [|c cs IH]; intros s Hinv; simpl; [done|].
  apply IH. by apply storageInv_step.
Qed.

Lemma reachable_storageInv s : reachable s -> storageInv s.
Proof.
  intros [cs ->]. apply storageInv_runCalls, storageInv_init.
Qed.

Lemma reachable_step s c : reachable s -> reachable (step s c).
Proof.
  intros [cs ->]. exists (cs ++ [c]).
  unfold DebtManagement.runCalls. by rewrite fold_left_app.
Qed.

(** In a reachable state nothing is stored under the empty identifier that
    the contract would regard as a record. *)
Lemma reachable_empty_id_free s :
  reachable s -> recordExists s EmptyString = false.
Proof.
  intros Hr. apply reachable_storageInv in Hr as (Hkey & _ & _).
  apply recordExists_empty. unfold recordAt.
  destruct (debtRecords s !! EmptyString) as [r|] eqn:Hl; simpl; [|done].
  by apply Hkey in Hl.
Qed.

(** In a reachable state a verified record is one the contract regards as
    existing. *)
Lemma reachable_verified_exists s id :
  reachable s -> isVerified (recordAt s id) = true ->
  recordExists s id = true.
Proof.
  intros Hr Hv. apply reachable_storageInv in Hr as (Hkey & Hver & _).
  unfold recordAt in Hv. apply recordExists_nonempty. unfold recordAt.
  destruct (debtRecords s !! id) as [r|] eqn:Hl; simpl in *; [|done].
  rewrite (Hkey _ _ Hl). by apply (Hver _ _ Hl).
Qed.

End Invariants.

(** ** Frame properties: what a call cannot change *)

Section Frame.

Variable inputVerifier : address -> externalEuint32 -> bytes -> option Z.
Variable kmsVerifier : list euint32 -> bytes -> bytes -> bool.

Local Abbreviation step := (step inputVerifier kmsVerifier).
Local Abbreviation runCalls := (runCalls inputVerifier kmsVerifier).
Local Abbreviation createdIds := (createdIds inputVerifier kmsVerifier).

Lemma immutablePart_afterVerify id v s k :
  immutablePart (recordAt (afterVerify id v s) k) =
  immutablePart (recordAt s k).
Proof.
  destruct (decide (id = k)) as [->|Hne].
  - by rewrite recordAt_afterVerify_eq.
  - by rewrite recordAt_afterVerify_ne.
Qed.

(** A record the contract regards as existing keeps its identifier, its
    ciphertext handle, its rate, its term, its owner and its creation date
    through every call. *)
Lemma step_keeps_existing s c k :
  recordExists s k = true ->
  recordExists (step s c) k = true /\
  immutablePart (recordAt (step s c) k) = immutablePart (recordAt s k).
Proof.
  intros Hk. step_inversion inputVerifier kmsVerifier s c.
  - done.
  - assert (id <> k) as Hne by (intros ->; congruence).
    unfold recordExists. by rewrite recordAt_afterCreate_ne.
  - by rewrite recordExists_afterVerify, immutablePart_afterVerify.
Qed.

Lemma runCalls_keeps_existing cs s k :
  recordExists s k = true ->
  recordExists (runCalls cs s) k = true /\
  immutablePart (recordAt (runCalls cs s) k) = immutablePart (recordAt s k).
Proof.
  revert s. induction cs as [|c cs IH]; intros s Hex; simpl; [done|].
  destruct (step_keeps_existing s c k Hex) as [Hex' Heq].
  destruct (IH _ Hex') as [Hex'' Heq'']. split; [done|]. congruence.
Qed.

(** The verified flag never goes back to false, and the decrypted amount of
    a verified record stays. *)
Lemma step_keeps_verified s c k :
  isVerified (recordAt s k) = true ->
  recordAt (step s c) k = recordAt s k \/ recordExists s k = false.
Proof.
  intros Hv. step_inversion inputVerifier kmsVerifier s c.
  - by left.
  - destruct (decide (id = k)) as [->|Hne]; [by right|].
    left. by rewrite recordAt_afterCreate_ne.
  - assert (id <> k) as Hne by (intros ->; congruence).
    left. by rewrite recordAt_afterVerify_ne.
Qed.

(** [debtIds] grows exactly by the identifiers of the creations that
    return. *)
Lemma step_debtIds s c :
  debtIds (step s c) = debtIds s ++ createdIds [c] s.
Proof.
  destruct c as [env id ext p rate months|id clear p|id|id| |]; simpl.
  - rewrite step_create. unfold succeeds; simpl.
    rewrite createDebtRecord_eval; simpl.
    destruct (recordExists s id); simpl; [by rewrite app_nil_r|].
    destruct (inputVerifier (msg_sender env) ext p) as [h|]; simpl;
      [|by rewrite app_nil_r].
    destruct (h =? 0); simpl; by rewrite ?app_nil_r.
  - rewrite step_verify, app_nil_r.
    destruct (_ && _ && _); [|done].
    destruct (abiDecodeUint32 clear); done.
  - by rewrite step_calculateMonthlyPayment, app_nil_r.
  - by rewrite step_getDebtRecord, app_nil_r.
  - by rewrite app_nil_r.
  - by rewrite app_nil_r.
Qed.

Lemma runCalls_debtIds cs s :
  debtIds (runCalls cs s) = debtIds s ++ createdIds cs s.
Proof.
  revert s. induction cs as [|c cs IH]; intros s.
  - simpl. by rewrite app_nil_r.
  - change (runCalls (c :: cs) s) with (runCalls cs (step s c)).
    rewrite IH, step_debtIds. cbn [DebtManagement.createdIds].
    by rewrite app_nil_r, app_assoc.
Qed.

End Frame.

(** ** [abi.decode] reads back what [abi.encode] wrote *)

Lemma wordOfBytes_snoc (bs : bytes) (b : byte) :
  wordOfBytes (bs ++ [b]) = wordOfBytes bs * 256 + Z.of_N (Byte.to_N b).
Proof. unfold wordOfBytes. by rewrite fold_left_app. Qed.

Lemma byteOfZ_value z :
  0 <= z < 256 -> Z.of_N (Byte.to_N (byteOfZ z)) = z.
Proof.
  intros Hz. unfold byteOfZ.
  destruct (Byte.of_N (Z.to_N z)) as [b|] eqn:Hb.
  - apply Byte.to_of_N in Hb. rewrite Hb. lia.
  - apply Byte.of_N_None_iff in Hb. lia.
Qed.

Lemma length_bytesOfWord n v : length (bytesOfWord n v) = n.
Proof.
  revert v. induction n as [|n IH]; intros v; simpl; [done|].
  rewrite length_app, IH. simpl. lia.
Qed.

Lemma wordOfBytes_bytesOfWord n v :
  0 <= v -> wordOfBytes (bytesOfWord n v) = v mod 256 ^ Z.of_nat n.
Proof.
  revert v. induction n as [|n IH]; intros v Hv.
  - simpl. by rewrite Z.mod_1_r.
  - cbn [bytesOfWord]. rewrite wordOfBytes_snoc, IH by (apply Z.div_pos; lia).
    rewrite byteOfZ_value by (apply Z.mod_pos_bound; lia).
    rewrite Nat2Z.inj_succ, Z.pow_succ_r by lia.
    rewrite (Z.rem_mul_r v 256 (256 ^ Z.of_nat n)) by lia. lia.
Qed.

Lemma abiDecode_abiEncode v :
  0 <= v <= UINT32_MAX -> abiDecodeUint32 (abiEncodeUint v) = Some v.
Proof.
  intros Hv. unfold abiDecodeUint32, abiEncodeUint.
  rewrite length_bytesOfWord. simpl (_ <? _)%nat. cbv iota.
  rewrite firstn_all2 by (rewrite length_bytesOfWord; lia).
  rewrite wordOfBytes_bytesOfWord by lia.
  assert (v mod 256 ^ Z.of_nat 32 = v) as ->.
  { apply Z.mod_small. unfold UINT32_MAX in Hv.
    change (256 ^ Z.of_nat 32) with (2 ^ 256). lia. }
  cbv zeta. destruct (v <=? UINT32_MAX) eqn:Hle; [done|].
  apply Z.leb_gt in Hle. lia.
Qed.

(** ** Duplicate identifiers *)

Section Registry.

Variable inputVerifier : address -> externalEuint32 -> bytes -> option Z.
Variable kmsVerifier : list euint32 -> bytes -> bytes -> bool.

Local Abbreviation step := (step inputVerifier kmsVerifier).
Local Abbreviation runCalls := (runCalls inputVerifier kmsVerifier).
Local Abbreviation reachable := (reachable inputVerifier kmsVerifier).
Local Abbreviation createDebtRecord := (createDebtRecord inputVerifier).

(** The duplicate error is raised exactly when the record stored under the
    identifier has a non-empty [debtId] field. *)
Lemma duplicate_error_iff env id ext p rate months s :
  returned (createDebtRecord env id ext p rate months) s
    = inl (Revert ERR_EXISTS)
  <-> debtId (recordAt s id) <> EmptyString.
Proof.
  rewrite <- recordExists_nonempty. unfold returned.
  rewrite createDebtRecord_eval; simpl.
  destruct (recordExists s id); simpl; [done|].
  split; [|done].
  destruct (inputVerifier (msg_sender env) ext p) as [h|]; simpl;
    [|discriminate].
  destruct (h =? 0); simpl; discriminate.
Qed.

(** For a non-empty identifier the registry behaves as a set: a second
    creation under an identifier that is taken reverts, checks no proof and
    changes nothing, and the identifier stays listed once. *)
Lemma duplicate_nonempty_id_rejected env id ext p rate months s :
  reachable s -> id <> EmptyString -> recordExists s id = true ->
  createDebtRecord env id ext p rate months s = ([], inl (Revert ERR_EXISTS))
  /\ step s (CreateDebtRecord env id ext p rate months) = s
  /\ count_occ string_dec (debtIds s) id = 1%nat.
Proof.
  intros Hr Hne Hex. repeat split.
  - rewrite createDebtRecord_eval; simpl. by rewrite Hex.
  - rewrite step_create. by rewrite Hex.
  - apply reachable_storageInv in Hr as (_ & _ & Hcount).
    rewrite (Hcount id Hne). by rewrite Hex.
Qed.

(** A creation that returns under a non-empty identifier makes the contract
    regard the identifier as taken. *)
Lemma created_nonempty_id_exists env id ext p rate months s :
  id <> EmptyString ->
  returned (createDebtRecord env id ext p rate months) s = inr tt ->
  recordExists (step s (CreateDebtRecord env id ext p rate months)) id = true.
Proof.
  intros Hne. unfold returned. rewrite step_create, createDebtRecord_eval.
  simpl. destruct (recordExists s id); simpl; [discriminate|].
  destruct (inputVerifier (msg_sender env) ext p) as [h|]; simpl;
    [|discriminate].
  destruct (h =? 0); simpl; [discriminate|]. intros _.
  unfold recordExists. rewrite recordAt_afterCreate_eq. simpl.
  by apply bytesLength_pos.
Qed.

(** The ciphertext handle stored under a non-empty identifier survives every
    sequence of calls. *)
Lemma encryptedAmount_fixed_nonempty_id cs s id :
  recordExists s id = true ->
  encryptedAmount (recordAt (runCalls cs s) id)
  = encryptedAmount (recordAt s id).
Proof.
  intros Hex.
  destruct (runCalls_keeps_existing inputVerifier kmsVerifier cs s id Hex)
    as [_ Heq].
  unfold immutablePart in Heq. congruence.
Qed.

(** C9.  Whether a record exists is decided by the [debtId] field of the
    stored record being non-empty.  Hence in every reachable state, also one
    in which a record was already created under the empty identifier, a
    creation under the empty identifier never fails with the duplicate
    error; when the input proof is accepted it returns, overwrites the
    stored record, its [encryptedAmount] included, and appends the empty
    identifier to [debtIds] once more. *)
Theorem empty_id_creation_never_duplicate env ext p rate months s :
  reachable s ->
  (forall id,
     returned (createDebtRecord env id ext p rate months) s
       = inl (Revert ERR_EXISTS)
     <-> debtId (recordAt s id) <> EmptyString) /\
  returned (createDebtRecord env EmptyString ext p rate months) s
    <> inl (Revert ERR_EXISTS) /\
  (forall h,
     inputVerifier (msg_sender env) ext p = Some h -> h <> 0 ->
     let s' := step s (CreateDebtRecord env EmptyString ext p rate months) in
     returned (createDebtRecord env EmptyString ext p rate months) s = inr tt
     /\ recordAt s' EmptyString
        = mkDebtRecord EmptyString (Handle h) rate months (msg_sender env)
                       (block_timestamp env) 0 false
     /\ debtIds s' = debtIds s ++ [EmptyString]
     /\ count_occ string_dec (debtIds s') EmptyString
        = S (count_occ string_dec (debtIds s) EmptyString)).
Proof.
  intros Hr. pose proof (reachable_empty_id_free _ _ _ Hr) as Hfree.
  split; [intros id; apply duplicate_error_iff|]. split.
  - rewrite duplicate_error_iff. apply recordExists_empty in Hfree. tauto.
  - intros h Hh Hnz s'. subst s'. unfold returned.
    rewrite step_create, createDebtRecord_eval; simpl.
    rewrite Hfree, Hh. apply Z.eqb_neq in Hnz. rewrite Hnz. simpl.
    rewrite recordAt_afterCreate_eq. repeat split.
    rewrite count_occ_app. simpl. lia.
Qed.

End Registry.

(** ** Verified decryption *)

Section Verification.

Variable inputVerifier : address -> externalEuint32 -> bytes -> option Z.
Variable kmsVerifier : list euint32 -> bytes -> bytes -> bool.

Local Abbreviation step := (step inputVerifier kmsVerifier).
Local Abbreviation reachable := (reachable inputVerifier kmsVerifier).
Local Abbreviation createDebtRecord := (createDebtRecord inputVerifier).
Local Abbreviation verifyDebtAmount := (verifyDebtAmount kmsVerifier).

(** Bytes that pass the signature check but are not the encoding of a
    32-bit value make the call revert in [abi.decode]. *)
Lemma verify_undecodable_reverts id clear p s :
  recordExists s id = true -> isVerified (recordAt s id) = false ->
  kmsVerifier [encryptedAmount (recordAt s id)] clear p = true ->
  abiDecodeUint32 clear = None ->
  returned (verifyDebtAmount id clear p) s = inl AbiDecodeFailure.
Proof.
  intros Hex Hnv Hsig Hdec. unfold returned.
  rewrite verifyDebtAmount_eval; simpl. by rewrite Hex, Hnv, Hsig, Hdec.
Qed.

(** A rejected decryption proof reverts and leaves the record unverified. *)
Lemma verify_bad_proof_reverts id clear p s :
  recordExists s id = true -> isVerified (recordAt s id) = false ->
  kmsVerifier [encryptedAmount (recordAt s id)] clear p = false ->
  returned (verifyDebtAmount id clear p) s = inl InvalidKMSSignatures
  /\ step s (VerifyDebtAmount id clear p) = s.
Proof.
  intros Hex Hnv Hsig. unfold returned.
  rewrite step_verify, verifyDebtAmount_eval; simpl.
  by rewrite Hex, Hnv, Hsig.
Qed.

(** C2.  Once the verified flag of a record is set, every further
    [verifyDebtAmount] on it, whatever the cleartext, the proof and the
    verdict the signature check would give, reverts with "Debt already
    verified" without performing any proof check, leaves the decrypted
    amount as committed, and emits no event. *)
Theorem verify_twice_rejected
    (anyVerifier : list euint32 -> bytes -> bytes -> bool) id clear p s :
  reachable s ->
  isVerified (recordAt s id) = true ->
  let s' := DebtManagement.step inputVerifier anyVerifier s
              (VerifyDebtAmount id clear p) in
  returned (DebtManagement.verifyDebtAmount anyVerifier id clear p) s
    = inl (Revert ERR_VERIFIED)
  /\ proofChecks (DebtManagement.verifyDebtAmount anyVerifier id clear p) s
     = []
  /\ decryptedAmount (recordAt s' id) = decryptedAmount (recordAt s id)
  /\ isVerified (recordAt s' id) = true
  /\ events s' = events s
  /\ s' = s.
Proof.
  intros Hr Hv s'.
  pose proof (reachable_verified_exists _ _ _ _ Hr Hv) as Hex.
  assert (s' = s) as Hs.
  { subst s'. rewrite step_verify. by rewrite Hex, Hv. }
  rewrite Hs. unfold returned, proofChecks.
  rewrite verifyDebtAmount_eval; simpl. rewrite Hex, Hv; simpl.
  by repeat split.
Qed.

(** C4.  On a record that exists and is not verified yet, a call whose
    cleartext and proof pass the signature check, the cleartext decoding to
    [v], returns; it stores [v] as the decrypted amount, sets the verified
    flag, emits the one event [DebtVerification id v], and [getDebtRecord]
    then returns the flag set, [v], and the rate and term as they were. *)
Theorem verify_commits_cleartext id clear p v s :
  recordExists s id = true ->
  isVerified (recordAt s id) = false ->
  kmsVerifier [encryptedAmount (recordAt s id)] clear p = true ->
  abiDecodeUint32 clear = Some v ->
  let s' := step s (VerifyDebtAmount id clear p) in
  snd (verifyDebtAmount id clear p s) = inr (tt, s')
  /\ decryptedAmount (recordAt s' id) = v
  /\ isVerified (recordAt s' id) = true
  /\ events s' = events s ++ [DebtVerification id v]
  /\ returned (getDebtRecord id) s'
     = inr (debtId (recordAt s id), interestRate (recordAt s id),
            termMonths (recordAt s id), owner (recordAt s id),
            creationDate (recordAt s id), true, v).
Proof.
  intros Hex Hnv Hsig Hdec s'.
  assert (s' = afterVerify id v s) as ->.
  { subst s'. rewrite step_verify. by rewrite Hex, Hnv, Hsig, Hdec. }
  rewrite verifyDebtAmount_eval; simpl. rewrite Hex, Hnv, Hsig, Hdec; simpl.
  unfold returned. rewrite getDebtRecord_eval.
  rewrite recordExists_afterVerify, Hex; simpl.
  rewrite recordAt_afterVerify_eq. by repeat split.
Qed.

(** Every 32-bit value has an encoding for which C4 applies. *)
Lemma verify_commits_encoded_value id p v s :
  0 <= v <= UINT32_MAX ->
  recordExists s id = true ->
  isVerified (recordAt s id) = false ->
  kmsVerifier [encryptedAmount (recordAt s id)] (abiEncodeUint v) p = true ->
  decryptedAmount
    (recordAt (step s (VerifyDebtAmount id (abiEncodeUint v) p)) id) = v.
Proof.
  intros Hv Hex Hnv Hsig.
  rewrite step_verify, Hex, Hnv, Hsig, (abiDecode_abiEncode v Hv); simpl.
  by rewrite recordAt_afterVerify_eq.
Qed.

(** C10.  The decrypted amount is a plain integer, 0 from creation on, and
    [getDebtRecord] returns it in every case: right after its creation a
    record reads (…, false, 0), and after a verification whose cleartext
    decodes to 0 it reads (.., true, 0); the two results differ in the
    verified flag only. *)
Theorem decryptedAmount_zero_ambiguous env id ext pi rate months h clear p s :
  id <> EmptyString ->
  recordExists s id = false ->
  inputVerifier (msg_sender env) ext pi = Some h -> h <> 0 ->
  kmsVerifier [Handle h] clear p = true ->
  abiDecodeUint32 clear = Some 0 ->
  let s1 := step s (CreateDebtRecord env id ext pi rate months) in
  let s2 := step s1 (VerifyDebtAmount id clear p) in
  decryptedAmount (recordAt s1 id) = 0
  /\ returned (getDebtRecord id) s1
     = inr (id, rate, months, msg_sender env, block_timestamp env, false, 0)
  /\ returned (getDebtRecord id) s2
     = inr (id, rate, months, msg_sender env, block_timestamp env, true, 0).
Proof.
  intros Hne Hfree Hin Hnz Hsig Hdec s1 s2.
  assert (s1 = afterCreate env id h rate months s) as Hs1.
  { subst s1. rewrite step_create, Hfree, Hin.
    apply Z.eqb_neq in Hnz. by rewrite Hnz. }
  assert (recordExists s1 id = true) as Hex1.
  { rewrite Hs1. unfold recordExists. rewrite recordAt_afterCreate_eq.
    simpl. by apply bytesLength_pos. }
  assert (recordAt s1 id = createdRecord env id h rate months) as Hr1.
  { rewrite Hs1. apply recordAt_afterCreate_eq. }
  assert (s2 = afterVerify id 0 s1) as Hs2.
  { subst s2. rewrite step_verify, Hex1, Hr1; simpl.
    by rewrite Hsig, Hdec. }
  unfold returned. rewrite !getDebtRecord_eval.
  rewrite Hs2, recordExists_afterVerify, recordAt_afterVerify_eq.
  rewrite Hex1, Hr1. by repeat split.
Qed.

End Verification.

(** ** The amortization engine *)

Section Amortization.

Variable inputVerifier : address -> externalEuint32 -> bytes -> option Z.
Variable kmsVerifier : list euint32 -> bytes -> bytes -> bool.

Local Abbreviation step := (step inputVerifier kmsVerifier).
Local Abbreviation verifyDebtAmount := (verifyDebtAmount kmsVerifier).

(** [calculateMonthlyPayment] never changes the state and checks no proof. *)
Lemma calculateMonthlyPayment_readonly id s :
  commit (calculateMonthlyPayment id) s = s
  /\ proofChecks (calculateMonthlyPayment id) s = []
  /\ (forall e s', snd (calculateMonthlyPayment id s) = inr (e, s') -> s' = s).
Proof.
  unfold commit, proofChecks. rewrite calculateMonthlyPayment_eval; simpl.
  destruct (recordExists s id); simpl; [|by repeat split].
  destruct (_ <=? _); simpl; [|by repeat split].
  destruct (_ <=? _); simpl; repeat split; try done.
  by intros e s' [= _ <-].
Qed.

Lemma calculateMonthlyPayment_missing id s :
  recordExists s id = false ->
  calculateMonthlyPayment id s = ([], inl (Revert ERR_MISSING)).
Proof.
  intros Hex. rewrite calculateMonthlyPayment_eval; simpl. by rewrite Hex.
Qed.

(** What the call returns depends on the state through the creation-time
    fields of the record only. *)
Lemma calculateMonthlyPayment_immutablePart id s t :
  immutablePart (recordAt s id) = immutablePart (recordAt t id) ->
  returned (calculateMonthlyPayment id) s
  = returned (calculateMonthlyPayment id) t.
Proof.
  unfold immutablePart. intros [= Hid Henc Hrate Hterm _ _].
  unfold returned. rewrite !calculateMonthlyPayment_eval; simpl.
  unfold recordExists. rewrite Hid, Henc, Hrate, Hterm.
  destruct (0 <? _); simpl; [|done].
  destruct (_ <=? _); simpl; [|done].
  destruct (_ <=? _); simpl; done.
Qed.

(** C3, as the code has it.  For a record that exists, and when neither
    scaling overflows 256 bits, [calculateMonthlyPayment] returns the
    ciphertext expression

      (amount * rateFixed) / (1000 - (1000 + rateFixed) ^ (0 - termFixed))

    built with the homomorphic operations, where
    [rateFixed = ((interestRate div 12) * 1000) mod 2^32] with the integer
    quotient and [termFixed = (termMonths * 1000) mod 2^32]; it checks no
    proof, leaves the state as it was, and reads the amount only through its
    ciphertext handle. *)
Theorem monthlyPayment_formula id s :
  recordExists s id = true ->
  interestRate (recordAt s id) / 12 * 1000 <= UINT256_MAX ->
  termMonths (recordAt s id) * 1000 <= UINT256_MAX ->
  let rateFixed := (interestRate (recordAt s id) / 12 * 1000) mod 2 ^ 32 in
  let termFixed := (termMonths (recordAt s id) * 1000) mod 2 ^ 32 in
  let amount := encryptedAmount (recordAt s id) in
  let numerator := FHE_mul amount (FHE_encrypt rateFixed) in
  let denominator :=
    FHE_sub (FHE_encrypt 1000)
            (FHE_exp (FHE_add (FHE_encrypt 1000) (FHE_encrypt rateFixed))
                     (FHE_sub (FHE_encrypt 0) (FHE_encrypt termFixed))) in
  calculateMonthlyPayment id s
  = ([], inr (FHE_div numerator denominator, s)).
Proof.
  intros Hex Hrate Hterm. cbv zeta.
  rewrite calculateMonthlyPayment_eval; simpl. rewrite Hex; simpl.
  apply Z.leb_le in Hrate, Hterm. by rewrite Hrate, Hterm.
Qed.

(** C6, as the code has it.  For a record that exists,
    [calculateMonthlyPayment] fails with the arithmetic panic exactly when
    [(interestRate div 12) * 1000] or [termMonths * 1000] exceeds the
    256-bit range.  Products that exceed the 32-bit range but fit in 256
    bits do not make it fail: it returns, with the products reduced modulo
    2^32. *)
Theorem monthlyPayment_overflow id s :
  recordExists s id = true ->
  let r := recordAt s id in
  (returned (calculateMonthlyPayment id) s = inl (Panic 17)
   <-> (UINT256_MAX < interestRate r / 12 * 1000
        \/ UINT256_MAX < termMonths r * 1000))
  /\ (interestRate r / 12 * 1000 <= UINT256_MAX ->
      termMonths r * 1000 <= UINT256_MAX ->
      returned (calculateMonthlyPayment id) s
      = inr (paymentExpr (encryptedAmount r)
                         ((interestRate r / 12 * 1000) mod 2 ^ 32)
                         ((termMonths r * 1000) mod 2 ^ 32))).
Proof.
  intros Hex r. subst r. unfold returned.
  rewrite calculateMonthlyPayment_eval; simpl. rewrite Hex; simpl.
  destruct (interestRate (recordAt s id) / 12 * 1000 <=? UINT256_MAX)
    eqn:Hrate; simpl.
  - destruct (termMonths (recordAt s id) * 1000 <=? UINT256_MAX)
      eqn:Hterm; simpl.
    + apply Z.leb_le in Hrate, Hterm. split; [|done].
      split; [discriminate|lia].
    + apply Z.leb_le in Hrate. apply Z.leb_gt in Hterm. split; [|lia].
      split; [by right|done].
  - apply Z.leb_gt in Hrate. split; [|lia].
    split; [by left|done].
Qed.

(** C8.  [calculateMonthlyPayment] reverts with "Debt record does not exist"
    for an identifier the contract does not know and never changes the
    state.  A [verifyDebtAmount] that returns changes, in the whole state,
    nothing but the decrypted amount and the verified flag of its record
    (and the event log), so [calculateMonthlyPayment] returns the same
    ciphertext expression, or the same failure, before and after it. *)
Theorem monthlyPayment_unaffected_by_verification id clear p s s' :
  snd (verifyDebtAmount id clear p s) = inr (tt, s') ->
  (forall k t, recordExists t k = false ->
               calculateMonthlyPayment k t = ([], inl (Revert ERR_MISSING)))
  /\ (forall k t, commit (calculateMonthlyPayment k) t = t)
  /\ (forall k, immutablePart (recordAt s' k) = immutablePart (recordAt s k))
  /\ (forall k, k <> id -> recordAt s' k = recordAt s k)
  /\ debtIds s' = debtIds s
  /\ allowedThis s' = allowedThis s
  /\ publiclyDecryptable s' = publiclyDecryptable s
  /\ (forall k, returned (calculateMonthlyPayment k) s'
                = returned (calculateMonthlyPayment k) s).
Proof.
  rewrite verifyDebtAmount_eval; simpl.
  destruct (recordExists s id); simpl; [|discriminate].
  destruct (isVerified (recordAt s id)); simpl; [discriminate|].
  destruct (kmsVerifier _ clear p); simpl; [|discriminate].
  destruct (abiDecodeUint32 clear) as [v|]; simpl; [|discriminate].
  intros [= <-].
  split; [intros k t; apply calculateMonthlyPayment_missing|].
  split; [intros k t; apply calculateMonthlyPayment_readonly|].
  split; [intros k; apply immutablePart_afterVerify|].
  split; [intros k Hk; by apply recordAt_afterVerify_ne|].
  repeat split.
  intros k. apply calculateMonthlyPayment_immutablePart.
  apply immutablePart_afterVerify.
Qed.

End Amortization.

(** ** Enumeration of identifiers *)

(** C7.  [getAllDebtIds] returns the identifiers of the creations that
    returned, in the order of the calls; [verifyDebtAmount] never changes
    the list; the call itself returns the list of the state it is run in and
    leaves that state as it is, so a later call reflects the state of that
    later moment.  Creating "a", "b", "c" with verifications in between
    yields exactly ["a"; "b"; "c"]. *)
Theorem getAllDebtIds_insertion_order :
  (forall inputVerifier kmsVerifier cs,
     returned getAllDebtIds (runCalls inputVerifier kmsVerifier cs initState)
     = inr (createdIds inputVerifier kmsVerifier cs initState))
  /\ (forall inputVerifier kmsVerifier id clear p s,
        debtIds (step inputVerifier kmsVerifier s
                      (VerifyDebtAmount id clear p))
        = debtIds s)
  /\ (forall s, getAllDebtIds s = ([], inr (debtIds s, s)))
  /\ returned getAllDebtIds
       (runCalls Sample.admitAll Sample.signAll Sample.abcCalls initState)
     = inr ["a"; "b"; "c"]%string.
Proof.
  split; [|split; [|split]].
  - intros iv kv cs. unfold returned. rewrite getAllDebtIds_eval. simpl.
    by rewrite runCalls_debtIds.
  - intros iv kv id clear p s.
    rewrite (step_debtIds iv kv s (VerifyDebtAmount id clear p)). simpl.
    by rewrite app_nil_r.
  - intros s. apply getAllDebtIds_eval.
  - vm_compute. reflexivity.
Qed.

(** ** The empty identifier on a concrete ledger *)

(** C1 fails under the empty identifier.  On the empty ledger a record is
    created under the empty identifier; the same call a second time, with
    another handle, does not revert with "Debt record already exists": it
    returns, replaces the record, and the identifier is listed twice, with
    two creation events. *)
Theorem empty_id_created_twice :
  returned (createDebtRecord Sample.admitAll Sample.alice EmptyString 7
                             Sample.noProof 12 24) initState = inr tt
  /\ debtIds Sample.ledgerEmpty1 = [EmptyString]
  /\ createDebtRecord Sample.admitAll Sample.bob EmptyString 9
                      Sample.noProof 6 36 Sample.ledgerEmpty1
     = ([InputProofCheck 177 9 []; InputProofCheck 177 9 []],
        inr (tt, Sample.ledgerEmpty2))
  /\ debtIds Sample.ledgerEmpty2 = [EmptyString; EmptyString]
  /\ events Sample.ledgerEmpty2
     = [DebtRecordCreated EmptyString 161; DebtRecordCreated EmptyString 177]
  /\ recordAt Sample.ledgerEmpty2 EmptyString
     = mkDebtRecord EmptyString (Handle 9) 6 36 177 1700000600 0 false.
Proof. repeat split; vm_compute; reflexivity. Qed.

(** C5 fails under the empty identifier.  The record created under the
    empty identifier holds the handle 7; after one more [createDebtRecord]
    under the same identifier, which returns, it holds the handle 9. *)
Theorem empty_id_ciphertext_replaced :
  encryptedAmount (recordAt Sample.ledgerEmpty1 EmptyString) = Handle 7
  /\ returned (createDebtRecord Sample.admitAll Sample.bob EmptyString 9
                                Sample.noProof 6 36) Sample.ledgerEmpty1
     = inr tt
  /\ encryptedAmount
       (recordAt (step Sample.admitAll Sample.signAll Sample.ledgerEmpty1
                       Sample.createEmpty2) EmptyString)
     = Handle 9.
Proof. repeat split; vm_compute; reflexivity. Qed.

(** The record under the empty identifier can be neither read nor verified:
    the contract does not regard it as existing. *)
Lemma empty_id_record_unreachable :
  returned (getDebtRecord EmptyString) Sample.ledgerEmpty1
  = inl (Revert ERR_MISSING)
  /\ returned (verifyDebtAmount Sample.signAll EmptyString
                                (abiEncodeUint 1000) Sample.noProof)
              Sample.ledgerEmpty1
     = inl (Revert ERR_MISSING).
Proof. split; vm_compute; reflexivity. Qed.

(** ** The formula of the specification against the formula of the code *)

(** C3 as stated does not hold.  For the record with rate 12 and term 24,
    where both scalings are exact, the code raises [1000 + rateFixed] to the
    power, the specification's formula raises [1 + rateFixed]. *)
Lemma monthlyPayment_base_differs :
  returned (calculateMonthlyPayment Sample.d1) Sample.ledgerD1
  = inr (FHE_div
           (FHE_mul (Handle 41) (FHE_encrypt 1000))
           (FHE_sub (FHE_encrypt 1000)
                    (FHE_exp (FHE_add (FHE_encrypt 1000) (FHE_encrypt 1000))
                             (FHE_sub (FHE_encrypt 0) (FHE_encrypt 24000)))))
  /\ spec_monthlyPayment (recordAt Sample.ledgerD1 Sample.d1)
     = FHE_div
         (FHE_mul (Handle 41) (FHE_encrypt 1000))
         (FHE_sub (FHE_encrypt 1000)
                  (FHE_exp (FHE_add (FHE_encrypt 1) (FHE_encrypt 1000))
                           (FHE_sub (FHE_encrypt 0) (FHE_encrypt 24000))))
  /\ returned (calculateMonthlyPayment Sample.d1) Sample.ledgerD1
     <> inr (spec_monthlyPayment (recordAt Sample.ledgerD1 Sample.d1)).
Proof.
  split; [vm_compute; reflexivity|].
  split; [vm_compute; reflexivity|].
  vm_compute. discriminate.
Qed.

(** The scalings differ as well: with rate 18 the code scales the integer
    quotient 1 to 1000 where rounding 1.5 * 1000 gives 1500, and with term
    4294968 the code keeps 4294968000 mod 2^32 = 704. *)
Lemma monthlyPayment_scaling_differs :
  spec_rateFixed 18 = 1500
  /\ spec_termFixed 4294968 = 4294968000
  /\ returned (calculateMonthlyPayment Sample.longTerm) Sample.ledgerLong
     = inr (paymentExpr (Handle 43) 1000 704).
Proof. repeat split; vm_compute; reflexivity. Qed.

(** C6 as stated does not hold.  The term 4294968 scaled by 1000 exceeds
    the 32-bit range, and [calculateMonthlyPayment] returns all the same,
    with the scaled term cut down to 704. *)
Lemma monthlyPayment_no_overflow_error :
  UINT32_MAX < termMonths (recordAt Sample.ledgerLong Sample.longTerm) * 1000
  /\ recordExists Sample.ledgerLong Sample.longTerm = true
  /\ returned (calculateMonthlyPayment Sample.longTerm) Sample.ledgerLong
     = inr (FHE_div
              (FHE_mul (Handle 43) (FHE_encrypt 1000))
              (FHE_sub (FHE_encrypt 1000)
                       (FHE_exp (FHE_add (FHE_encrypt 1000)
                                         (FHE_encrypt 1000))
                                (FHE_sub (FHE_encrypt 0)
                                         (FHE_encrypt 704))))).
Proof. repeat split; vm_compute; reflexivity. Qed.

(** ** The theorems at work on the sample ledgers *)

(** After one creation under the empty identifier, a second one is not a
    duplicate and lists the identifier again. *)
Lemma empty_id_creation_never_duplicate_witness :
  reachable Sample.admitAll Sample.signAll Sample.ledgerEmpty1
  /\ returned (createDebtRecord Sample.admitAll Sample.bob EmptyString 9
                                Sample.noProof 6 36) Sample.ledgerEmpty1
     <> inl (Revert ERR_EXISTS)
  /\ debtIds (step Sample.admitAll Sample.signAll Sample.ledgerEmpty1
                   Sample.createEmpty2)
     = debtIds Sample.ledgerEmpty1 ++ [EmptyString].
Proof.
  assert (reachable Sample.admitAll Sample.signAll Sample.ledgerEmpty1)
    as Hr.
  { exists [Sample.createEmpty1]. reflexivity. }
  destruct (empty_id_creation_never_duplicate
              Sample.admitAll Sample.signAll Sample.bob 9 Sample.noProof
              6 36 Sample.ledgerEmpty1 Hr) as (_ & Hnd & Hov).
  split; [exact Hr|]. split; [exact Hnd|].
  destruct (Hov 9 eq_refl ltac:(lia)) as (_ & _ & Hids & _). exact Hids.
Defined.

(** On the verified record "d1" a further verification is rejected although
    the signature check would reject it too: no check is made. *)
Lemma verify_twice_rejected_witness :
  reachable Sample.admitAll Sample.signAll Sample.ledgerD1Verified
  /\ isVerified (recordAt Sample.ledgerD1Verified Sample.d1) = true
  /\ returned (verifyDebtAmount Sample.signNone Sample.d1 (abiEncodeUint 5)
                                Sample.noProof) Sample.ledgerD1Verified
     = inl (Revert ERR_VERIFIED)
  /\ proofChecks (verifyDebtAmount Sample.signNone Sample.d1
                                   (abiEncodeUint 5) Sample.noProof)
                 Sample.ledgerD1Verified
     = [].
Proof.
  assert (reachable Sample.admitAll Sample.signAll Sample.ledgerD1Verified)
    as Hr.
  { exists [Sample.createD1; Sample.verifyD1]. reflexivity. }
  assert (isVerified (recordAt Sample.ledgerD1Verified Sample.d1) = true)
    as Hv.
  { vm_compute. reflexivity. }
  destruct (verify_twice_rejected
              Sample.admitAll Sample.signAll Sample.signNone Sample.d1
              (abiEncodeUint 5) Sample.noProof Sample.ledgerD1Verified Hr Hv)
    as (Hret & Hchk & _).
  split; [exact Hr|]. split; [exact Hv|]. split; [exact Hret|exact Hchk].
Defined.

(** The round trip on "d1": created with rate 12 and term 24, verified with
    the cleartext 1000. *)
Lemma verify_commits_cleartext_witness :
  recordExists Sample.ledgerD1 Sample.d1 = true
  /\ isVerified (recordAt Sample.ledgerD1 Sample.d1) = false
  /\ abiDecodeUint32 (abiEncodeUint 1000) = Some 1000
  /\ returned (getDebtRecord Sample.d1)
              (step Sample.admitAll Sample.signAll Sample.ledgerD1
                    Sample.verifyD1)
     = inr (debtId (recordAt Sample.ledgerD1 Sample.d1),
            interestRate (recordAt Sample.ledgerD1 Sample.d1),
            termMonths (recordAt Sample.ledgerD1 Sample.d1),
            owner (recordAt Sample.ledgerD1 Sample.d1),
            creationDate (recordAt Sample.ledgerD1 Sample.d1), true, 1000).
Proof.
  assert (recordExists Sample.ledgerD1 Sample.d1 = true) as Hex.
  { vm_compute. reflexivity. }
  assert (isVerified (recordAt Sample.ledgerD1 Sample.d1) = false) as Hnv.
  { vm_compute. reflexivity. }
  assert (abiDecodeUint32 (abiEncodeUint 1000) = Some 1000) as Hdec.
  { vm_compute. reflexivity. }
  destruct (verify_commits_cleartext
              Sample.admitAll Sample.signAll Sample.d1 (abiEncodeUint 1000)
              Sample.noProof 1000 Sample.ledgerD1 Hex Hnv eq_refl Hdec)
    as (_ & _ & _ & _ & Hget).
  split; [exact Hex|]. split; [exact Hnv|]. split; [exact Hdec|exact Hget].
Defined.

(** "d1" read right after its creation and after a verification with the
    cleartext 0. *)
Lemma decryptedAmount_zero_ambiguous_witness :
  returned (getDebtRecord Sample.d1) Sample.ledgerD1
  = inr (Sample.d1, 12, 24, 161, 1700000000, false, 0)
  /\ returned (getDebtRecord Sample.d1)
              (step Sample.admitAll Sample.signAll Sample.ledgerD1
                    (VerifyDebtAmount Sample.d1 (abiEncodeUint 0)
                                      Sample.noProof))
     = inr (Sample.d1, 12, 24, 161, 1700000000, true, 0).
Proof.
  destruct (decryptedAmount_zero_ambiguous
              Sample.admitAll Sample.signAll Sample.alice Sample.d1 41
              Sample.noProof 12 24 41 (abiEncodeUint 0) Sample.noProof
              initState)
    as (_ & Hfresh & Hzero).
  - discriminate.
  - vm_compute. reflexivity.
  - reflexivity.
  - lia.
  - reflexivity.
  - vm_compute. reflexivity.
  - split; [exact Hfresh|exact Hzero].
Defined.

(** The payment expression of "d1": rate 12 scales to 1000, term 24 to
    24000. *)
Lemma monthlyPayment_formula_witness :
  recordExists Sample.ledgerD1 Sample.d1 = true
  /\ returned (calculateMonthlyPayment Sample.d1) Sample.ledgerD1
     = inr (FHE_div
              (FHE_mul (Handle 41) (FHE_encrypt 1000))
              (FHE_sub (FHE_encrypt 1000)
                       (FHE_exp (FHE_add (FHE_encrypt 1000)
                                         (FHE_encrypt 1000))
                                (FHE_sub (FHE_encrypt 0)
                                         (FHE_encrypt 24000))))).
Proof.
  assert (recordExists Sample.ledgerD1 Sample.d1 = true) as Hex.
  { vm_compute. reflexivity. }
  split; [exact Hex|].
  unfold returned.
  rewrite (monthlyPayment_formula Sample.d1 Sample.ledgerD1 Hex).
  - vm_compute. reflexivity.
  - apply Z.leb_le. vm_compute. reflexivity.
  - apply Z.leb_le. vm_compute. reflexivity.
Defined.

(** A term of 2^250 months overflows the 256-bit multiplication. *)
Lemma monthlyPayment_overflow_witness :
  recordExists Sample.ledgerHuge Sample.hugeTerm = true
  /\ UINT256_MAX
     < termMonths (recordAt Sample.ledgerHuge Sample.hugeTerm) * 1000
  /\ returned (calculateMonthlyPayment Sample.hugeTerm) Sample.ledgerHuge
     = inl (Panic 17).
Proof.
  assert (recordExists Sample.ledgerHuge Sample.hugeTerm = true) as Hex.
  { vm_compute. reflexivity. }
  assert (UINT256_MAX
          < termMonths (recordAt Sample.ledgerHuge Sample.hugeTerm) * 1000)
    as Hbig.
  { vm_compute. reflexivity. }
  destruct (monthlyPayment_overflow Sample.hugeTerm Sample.ledgerHuge Hex)
    as [[_ Hpanic] _].
  split; [exact Hex|]. split; [exact Hbig|].
  apply Hpanic. right. exact Hbig.
Defined.

(** The payment expression of "d1" is the same before and after its
    verification. *)
Lemma monthlyPayment_unaffected_by_verification_witness :
  snd (verifyDebtAmount Sample.signAll Sample.d1 (abiEncodeUint 1000)
                        Sample.noProof Sample.ledgerD1)
  = inr (tt, Sample.ledgerD1Verified)
  /\ returned (calculateMonthlyPayment Sample.d1) Sample.ledgerD1Verified
     = returned (calculateMonthlyPayment Sample.d1) Sample.ledgerD1.
Proof.
  assert (snd (verifyDebtAmount Sample.signAll Sample.d1
                                (abiEncodeUint 1000) Sample.noProof
                                Sample.ledgerD1)
          = inr (tt, Sample.ledgerD1Verified)) as Hok.
  { vm_compute. reflexivity. }
  destruct (monthlyPayment_unaffected_by_verification
              Sample.signAll Sample.d1 (abiEncodeUint 1000) Sample.noProof
              Sample.ledgerD1 Sample.ledgerD1Verified Hok)
    as (_ & _ & _ & _ & _ & _ & _ & Hsame).
  split; [exact Hok|exact (Hsame Sample.d1)].
Defined.

(** ** When the two transactions return, and what they then do *)

Section Transactions.

Variable inputVerifier : address -> externalEuint32 -> bytes -> option Z.
Variable kmsVerifier : list euint32 -> bytes -> bytes -> bool.

Local Abbreviation step := (step inputVerifier kmsVerifier).
Local Abbreviation createDebtRecord := (createDebtRecord inputVerifier).
Local Abbreviation verifyDebtAmount := (verifyDebtAmount kmsVerifier).

(** [createDebtRecord] returns exactly when the stored [debtId] under the
    identifier is empty, the input verifier admits the ciphertext, and the
    admitted handle is not the zero handle. *)
Theorem createDebtRecord_returns_iff env id ext p rate months s :
  returned (createDebtRecord env id ext p rate months) s = inr tt
  <-> recordExists s id = false
      /\ exists h, inputVerifier (msg_sender env) ext p = Some h /\ h <> 0.
Proof.
  unfold returned. rewrite createDebtRecord_eval; simpl.
  destruct (recordExists s id); simpl.
  { split; [discriminate|]. by intros [? _]. }
  destruct (inputVerifier (msg_sender env) ext p) as [h|]; simpl.
  - destruct (h =? 0) eqn:Hz; simpl.
    + apply Z.eqb_eq in Hz. split; [discriminate|].
      intros (_ & h' & [= <-] & Hne). done.
    + apply Z.eqb_neq in Hz. split; [|done]. intros _. split; [done|].
      by exists h.
  - split; [discriminate|]. by intros (_ & h' & ? & _).
Qed.

(** The three ways [createDebtRecord] fails, in the order the code tests
    them: a taken identifier reverts before any proof is looked at; a
    rejected input proof reverts after one check; an admitted zero handle
    reverts with "Invalid encrypted amount".  Whatever the failure, the call
    leaves the state as it was. *)
Theorem createDebtRecord_failures env id ext p rate months s :
  (recordExists s id = true ->
     createDebtRecord env id ext p rate months s
     = ([], inl (Revert ERR_EXISTS)))
  /\ (recordExists s id = false ->
      inputVerifier (msg_sender env) ext p = None ->
      createDebtRecord env id ext p rate months s
      = ([InputProofCheck (msg_sender env) ext p], inl InvalidInputProof))
  /\ (recordExists s id = false ->
      inputVerifier (msg_sender env) ext p = Some 0 ->
      createDebtRecord env id ext p rate months s
      = ([InputProofCheck (msg_sender env) ext p],
         inl (Revert ERR_INVALID_AMOUNT)))
  /\ (returned (createDebtRecord env id ext p rate months) s <> inr tt ->
      step s (CreateDebtRecord env id ext p rate months) = s).
Proof.
  split; [|split; [|split]].
  - intros Hex. rewrite createDebtRecord_eval; simpl. by rewrite Hex.
  - intros Hex Hin. rewrite createDebtRecord_eval; simpl.
    by rewrite Hex, Hin.
  - intros Hex Hin. rewrite createDebtRecord_eval; simpl.
    by rewrite Hex, Hin.
  - unfold returned. rewrite step_create, createDebtRecord_eval; simpl.
    destruct (recordExists s id); simpl; [done|].
    destruct (inputVerifier (msg_sender env) ext p) as [h|]; simpl; [|done].
    destruct (h =? 0); simpl; done.
Qed.

(** A [createDebtRecord] that returns has checked the input proof twice,
    stores the record with the caller as owner, the block time as creation
    date, amount 0 and not verified, grants the two permissions on the
    admitted handle, appends the identifier and one creation event, and
    leaves the record of every other identifier as it was. *)
Theorem createDebtRecord_effect env id ext p rate months s s' :
  snd (createDebtRecord env id ext p rate months s) = inr (tt, s') ->
  exists h,
    inputVerifier (msg_sender env) ext p = Some h /\ h <> 0
    /\ proofChecks (createDebtRecord env id ext p rate months) s
       = [InputProofCheck (msg_sender env) ext p;
          InputProofCheck (msg_sender env) ext p]
    /\ recordAt s' id
       = mkDebtRecord id (Handle h) rate months (msg_sender env)
                      (block_timestamp env) 0 false
    /\ debtIds s' = debtIds s ++ [id]
    /\ events s' = events s ++ [DebtRecordCreated id (msg_sender env)]
    /\ allowedThis s' = allowedThis s ++ [Handle h]
    /\ publiclyDecryptable s' = publiclyDecryptable s ++ [Handle h]
    /\ (forall k, k <> id -> recordAt s' k = recordAt s k).
Proof.
  unfold proofChecks. rewrite createDebtRecord_eval; simpl.
  destruct (recordExists s id); simpl; [discriminate|].
  destruct (inputVerifier (msg_sender env) ext p) as [h|]; simpl;
    [|discriminate].
  destruct (h =? 0) eqn:Hz; simpl; [discriminate|].
  intros [= <-]. exists h. apply Z.eqb_neq in Hz.
  rewrite recordAt_afterCreate_eq. repeat split; try done.
  intros k Hk. by apply recordAt_afterCreate_ne.
Qed.

(** [verifyDebtAmount] returns exactly when the record exists, is not
    verified, the signature check accepts the cleartext for the stored
    handle, and the cleartext decodes to a 32-bit value. *)
Theorem verifyDebtAmount_returns_iff id clear p s :
  returned (verifyDebtAmount id clear p) s = inr tt
  <-> recordExists s id = true
      /\ isVerified (recordAt s id) = false
      /\ kmsVerifier [encryptedAmount (recordAt s id)] clear p = true
      /\ exists v, abiDecodeUint32 clear = Some v.
Proof.
  unfold returned. rewrite verifyDebtAmount_eval; simpl.
  destruct (recordExists s id); simpl.
  2: { split; [discriminate|]. by intros [? _]. }
  destruct (isVerified (recordAt s id)); simpl.
  { split; [discriminate|]. by intros (_ & ? & _). }
  destruct (kmsVerifier _ clear p); simpl.
  2: { split; [discriminate|]. by intros (_ & _ & ? & _). }
  destruct (abiDecodeUint32 clear) as [v|]; simpl.
  - split; [|done]. intros _. repeat split. by exists v.
  - split; [discriminate|]. by intros (_ & _ & _ & v & ?).
Qed.

(** The failures of [verifyDebtAmount], in the order the code tests them:
    an unknown identifier and a verified record revert before any proof
    check; rejected signatures revert after the one check, made on the
    stored handle; accepted bytes that do not decode revert in the
    decoding.  In each case the state stays as it was. *)
Theorem verifyDebtAmount_failures id clear p s :
  let check := SignatureCheck [encryptedAmount (recordAt s id)] clear p in
  (recordExists s id = false ->
     verifyDebtAmount id clear p s = ([], inl (Revert ERR_MISSING)))
  /\ (recordExists s id = true -> isVerified (recordAt s id) = true ->
      verifyDebtAmount id clear p s = ([], inl (Revert ERR_VERIFIED)))
  /\ (recordExists s id = true -> isVerified (recordAt s id) = false ->
      kmsVerifier [encryptedAmount (recordAt s id)] clear p = false ->
      verifyDebtAmount id clear p s = ([check], inl InvalidKMSSignatures))
  /\ (recordExists s id = true -> isVerified (recordAt s id) = false ->
      kmsVerifier [encryptedAmount (recordAt s id)] clear p = true ->
      abiDecodeUint32 clear = None ->
      verifyDebtAmount id clear p s = ([check], inl AbiDecodeFailure))
  /\ (returned (verifyDebtAmount id clear p) s <> inr tt ->
      step s (VerifyDebtAmount id clear p) = s).
Proof.
  cbv zeta. split; [|split; [|split; [|split]]].
  - intros Hex. rewrite verifyDebtAmount_eval; simpl. by rewrite Hex.
  - intros Hex Hv. rewrite verifyDebtAmount_eval; simpl. by rewrite Hex, Hv.
  - intros Hex Hv Hsig. rewrite verifyDebtAmount_eval; simpl.
    by rewrite Hex, Hv, Hsig.
  - intros Hex Hv Hsig Hdec. rewrite verifyDebtAmount_eval; simpl.
    by rewrite Hex, Hv, Hsig, Hdec.
  - unfold returned. rewrite step_verify, verifyDebtAmount_eval; simpl.
    destruct (recordExists s id); simpl; [|done].
    destruct (isVerified (recordAt s id)); simpl; [done|].
    destruct (kmsVerifier _ clear p); simpl; [|done].
    destruct (abiDecodeUint32 clear); simpl; done.
Qed.

End Transactions.

(** ** The second invariant holds in every reachable state *)

Lemma wordOfBytes_nonneg (bs : bytes) : 0 <= wordOfBytes bs.
Proof.
  unfold wordOfBytes.
  assert (forall acc, 0 <= acc ->
            0 <= fold_left (fun a b => a * 256 + Z.of_N (Byte.to_N b)) bs acc)
    as Hgen.
  { induction bs as [|b bs IH]; intros acc Hacc; simpl; [done|].
    apply IH. lia. }
  by apply Hgen.
Qed.

Lemma abiDecodeUint32_range data v :
  abiDecodeUint32 data = Some v -> 0 <= v <= UINT32_MAX.
Proof.
  unfold abiDecodeUint32. destruct (_ <? _)%nat; [discriminate|].
  cbv zeta. destruct (_ <=? UINT32_MAX) eqn:Hle; [|discriminate].
  intros [= <-]. apply Z.leb_le in Hle.
  split; [apply wordOfBytes_nonneg|done].
Qed.

Lemma createdEventIds_snoc evs ev :
  createdEventIds (evs ++ [ev])
  = createdEventIds evs ++ match ev with
                           | DebtRecordCreated id _ => [id]
                           | DebtVerification _ _ => []
                           end.
Proof.
  unfold createdEventIds. rewrite flat_map_app. simpl.
  by rewrite app_nil_r.
Qed.

Lemma disclosuresOf_snoc k evs ev :
  disclosuresOf k (evs ++ [ev])
  = disclosuresOf k evs ++ match ev with
                           | DebtVerification id v =>
                               if String.eqb id k then [v] else []
                           | DebtRecordCreated _ _ => []
                           end.
Proof.
  unfold disclosuresOf. rewrite flat_map_app. simpl.
  by rewrite app_nil_r.
Qed.

Lemma storageInv_verified_exists s id :
  storageInv s -> isVerified (recordAt s id) = true ->
  recordExists s id = true.
Proof.
  intros (Hkey & Hver & _) Hv.
  unfold recordAt in Hv. apply recordExists_nonempty. unfold recordAt.
  destruct (debtRecords s !! id) as [r|] eqn:Hl; simpl in *; [|done].
  rewrite (Hkey _ _ Hl). by apply (Hver _ _ Hl).
Qed.

Lemma ledgerInv_init : ledgerInv initState.
Proof.
  split; [|split; [|split]]; done.
Qed.

Lemma ledgerInv_afterCreate env id h rate months s :
  recordExists s id = false -> h <> 0 ->
  storageInv s -> ledgerInv s ->
  ledgerInv (afterCreate env id h rate months s).
Proof.
  intros Hfree Hnz Hst (Hhandle & Hamount & Hcreated & Hdisc).
  split; [|split; [|split]].
  - intros k r. unfold afterCreate; simpl. rewrite lookup_insert.
    case_decide as Hk.
    + intros [= <-]. exists h. simpl.
      rewrite !in_app_iff. simpl. by repeat split; try right; try left.
    + intros Hl. destruct (Hhandle _ _ Hl) as (h' & ? & ? & ? & ?).
      exists h'. rewrite !in_app_iff. by repeat split; try left.
  - intros k r. unfold afterCreate; simpl. rewrite lookup_insert.
    case_decide as Hk.
    + intros [= <-]. simpl. by vm_compute.
    + apply Hamount.
  - simpl. by rewrite createdEventIds_snoc, Hcreated.
  - intros k. simpl. rewrite disclosuresOf_snoc, app_nil_r.
    change (mkState _ _ _ _ _) with (afterCreate env id h rate months s).
    destruct (decide (id = k)) as [->|Hne].
    + rewrite recordAt_afterCreate_eq. simpl. rewrite Hdisc.
      destruct (isVerified (recordAt s k)) eqn:Hv; [|done].
      apply (storageInv_verified_exists _ _ Hst) in Hv. congruence.
    + rewrite recordAt_afterCreate_ne by done. apply Hdisc.
Qed.

Lemma ledgerInv_afterVerify id v s :
  recordExists s id = true -> isVerified (recordAt s id) = false ->
  0 <= v <= UINT32_MAX ->
  ledgerInv s -> ledgerInv (afterVerify id v s).
Proof.
  intros Hex Hnv Hv (Hhandle & Hamount & Hcreated & Hdisc).
  pose proof (recordExists_stored _ _ Hex) as Hst.
  split; [|split; [|split]].
  - intros k r. unfold afterVerify; simpl. rewrite lookup_insert.
    case_decide as Hk.
    + intros [= <-]. simpl. apply (Hhandle _ _ Hst).
    + apply Hhandle.
  - intros k r. unfold afterVerify; simpl. rewrite lookup_insert.
    case_decide as Hk.
    + intros [= <-]. simpl. split; [done|discriminate].
    + apply Hamount.
  - simpl. by rewrite createdEventIds_snoc, app_nil_r.
  - intros k. simpl. rewrite disclosuresOf_snoc.
    change (mkState _ _ _ _ _) with (afterVerify id v s).
    destruct (decide (id = k)) as [->|Hne].
    + rewrite recordAt_afterVerify_eq. simpl.
      rewrite Hdisc, Hnv. simpl. by rewrite String.eqb_refl.
    + rewrite recordAt_afterVerify_ne by done. rewrite Hdisc.
      apply String.eqb_neq in Hne. rewrite Hne. by rewrite app_nil_r.
Qed.

Section LedgerInvariant.

Variable inputVerifier : address -> externalEuint32 -> bytes -> option Z.
Variable kmsVerifier : list euint32 -> bytes -> bytes -> bool.

Local Abbreviation step := (step inputVerifier kmsVerifier).
Local Abbreviation runCalls := (runCalls inputVerifier kmsVerifier).
Local Abbreviation reachable := (reachable inputVerifier kmsVerifier).

Lemma ledgerInv_step s c :
  storageInv s -> ledgerInv s -> ledgerInv (step s c).
Proof.
  intros Hst Hinv.
  destruct c as [env id ext p rate months|id clear p|id|id| |].
  - rewrite step_create.
    destruct (recordExists s id) eqn:Hex; [done|].
    destruct (inputVerifier (msg_sender env) ext p) as [h|]; [|done].
    destruct (h =? 0) eqn:Hz; [done|]. apply Z.eqb_neq in Hz.
    by apply ledgerInv_afterCreate.
  - rewrite step_verify.
    destruct (recordExists s id) eqn:Hex; simpl; [|done].
    destruct (isVerified (recordAt s id)) eqn:Hv; simpl; [done|].
    destruct (kmsVerifier _ clear p); [|done].
    destruct (abiDecodeUint32 clear) as [v|] eqn:Hdec; [|done].
    apply ledgerInv_afterVerify; try done.
    by apply (abiDecodeUint32_range clear).
  - by rewrite step_calculateMonthlyPayment.
  - by rewrite step_getDebtRecord.
  - done.
  - done.
Qed.

Lemma bothInv_runCalls cs s :
  storageInv s -> ledgerInv s ->
  storageInv (runCalls cs s) /\ ledgerInv (runCalls cs s).
Proof.
  revert s. induction cs as [|c cs IH]; intros s Hst Hinv; simpl; [done|].
  apply IH.
  - by apply storageInv_step.
  - by apply ledgerInv_step.
Qed.

Lemma reachable_ledgerInv s : reachable s -> ledgerInv s.
Proof.
  intros [cs ->].
  apply bothInv_runCalls; [apply storageInv_init|apply ledgerInv_init].
Qed.

Lemma reachable_runCalls cs s : reachable s -> reachable (runCalls cs s).
Proof.
  intros [cs0 ->]. exists (cs0 ++ cs).
  unfold DebtManagement.runCalls. by rewrite fold_left_app.
Qed.

End LedgerInvariant.

(** ** What holds of every reachable ledger *)

Section Ledger.

Variable inputVerifier : address -> externalEuint32 -> bytes -> option Z.
Variable kmsVerifier : list euint32 -> bytes -> bytes -> bool.

Local Abbreviation step := (step inputVerifier kmsVerifier).
Local Abbreviation runCalls := (runCalls inputVerifier kmsVerifier).
Local Abbreviation reachable := (reachable inputVerifier kmsVerifier).
Local Abbreviation createDebtRecord := (createDebtRecord inputVerifier).

(** A verified record is final: whatever calls follow, every field of it,
    the verified flag and the decrypted amount included, stays as it is. *)
Theorem verified_record_final cs s k :
  reachable s -> isVerified (recordAt s k) = true ->
  recordAt (runCalls cs s) k = recordAt s k.
Proof.
  revert s. induction cs as [|c cs IH]; intros s Hr Hv; simpl; [done|].
  assert (recordAt (step s c) k = recordAt s k) as Hsame.
  { destruct (step_keeps_verified inputVerifier kmsVerifier s c k Hv)
      as [Hsame|Hfree]; [done|].
    pose proof (reachable_verified_exists _ _ _ _ Hr Hv). congruence. }
  rewrite <- Hsame. apply IH.
  - by apply reachable_step.
  - by rewrite Hsame.
Qed.

(** A record the contract regards as existing is never deleted, and its
    identifier, ciphertext handle, rate, term, owner and creation date stay
    what they are through every sequence of calls. *)
Theorem existing_record_terms_fixed cs s k :
  recordExists s k = true ->
  let r := recordAt s k in
  let r' := recordAt (runCalls cs s) k in
  recordExists (runCalls cs s) k = true
  /\ debtId r' = debtId r
  /\ encryptedAmount r' = encryptedAmount r
  /\ interestRate r' = interestRate r
  /\ termMonths r' = termMonths r
  /\ owner r' = owner r
  /\ creationDate r' = creationDate r.
Proof.
  intros Hex r r'. subst r r'.
  destruct (runCalls_keeps_existing inputVerifier kmsVerifier cs s k Hex)
    as [Hex' Heq].
  unfold immutablePart in Heq. injection Heq as ? ? ? ? ? ?.
  by repeat split.
Qed.

(** The payment expression of an existing record is the same after any
    sequence of calls. *)
Theorem monthlyPayment_stable cs s k :
  recordExists s k = true ->
  returned (calculateMonthlyPayment k) (runCalls cs s)
  = returned (calculateMonthlyPayment k) s.
Proof.
  intros Hex. apply calculateMonthlyPayment_immutablePart.
  by destruct (runCalls_keeps_existing inputVerifier kmsVerifier cs s k Hex).
Qed.

(** A non-empty identifier is listed by [getAllDebtIds] exactly when
    [getDebtRecord] knows it, and it is never listed twice. *)
Theorem listed_iff_exists s k :
  reachable s -> k <> EmptyString ->
  (In k (debtIds s) <-> recordExists s k = true)
  /\ (count_occ string_dec (debtIds s) k <= 1)%nat.
Proof.
  intros Hr Hk. apply reachable_storageInv in Hr as (_ & _ & Hcount).
  specialize (Hcount k Hk).
  rewrite (count_occ_In string_dec). rewrite Hcount.
  destruct (recordExists s k).
  - split; [split; [done|lia]|lia].
  - split; [split; [lia|discriminate]|lia].
Qed.

Lemma reachable_existing_listed s k :
  reachable s -> k <> EmptyString -> recordExists s k = true ->
  In k (debtIds s).
Proof.
  intros Hr Hk Hex. apply reachable_storageInv in Hr as (_ & _ & Hcount).
  apply (count_occ_In string_dec). rewrite (Hcount k Hk), Hex. lia.
Qed.

(** What [getDebtRecord] returns is well formed: the identifier is the one
    asked for, it is not empty and it is listed; the decrypted amount fits
    in 32 bits and is 0 unless the verified flag is set. *)
Theorem getDebtRecord_well_formed s k i rate term who date ver amount :
  reachable s ->
  returned (getDebtRecord k) s = inr (i, rate, term, who, date, ver, amount) ->
  i = k /\ k <> EmptyString /\ In k (debtIds s)
  /\ 0 <= amount <= UINT32_MAX
  /\ (ver = false -> amount = 0).
Proof.
  intros Hr. unfold returned. rewrite getDebtRecord_eval.
  destruct (recordExists s k) eqn:Hex; simpl; [|discriminate].
  intros [= <- _ _ _ _ <- <-].
  pose proof (recordExists_stored _ _ Hex) as Hst.
  pose proof (reachable_storageInv _ _ _ Hr) as (Hkey & _ & _).
  pose proof (reachable_ledgerInv _ _ _ Hr) as (_ & Hamount & _ & _).
  pose proof (Hkey _ _ Hst) as Hid.
  assert (k <> EmptyString) as Hne.
  { apply recordExists_nonempty in Hex. congruence. }
  destruct (Hamount _ _ Hst) as [Hrange Hzero].
  repeat split; try done; try lia.
  by apply reachable_existing_listed.
Qed.

(** The creation events of the log, read in order, name the identifiers
    that [getAllDebtIds] returns. *)
Theorem creation_events_mirror_ids s :
  reachable s ->
  returned getAllDebtIds s = inr (createdEventIds (events s)).
Proof.
  intros Hr. apply reachable_ledgerInv in Hr as (_ & _ & Hcreated & _).
  unfold returned. rewrite getAllDebtIds_eval. simpl. by rewrite Hcreated.
Qed.

(** An amount is disclosed at most once per identifier: the log holds the
    one [DebtVerification] event with the committed amount for a verified
    record, and none for any other identifier. *)
Theorem disclosed_at_most_once s k :
  reachable s ->
  (isVerified (recordAt s k) = true ->
     disclosuresOf k (events s) = [decryptedAmount (recordAt s k)])
  /\ (isVerified (recordAt s k) = false -> disclosuresOf k (events s) = []).
Proof.
  intros Hr. apply reachable_ledgerInv in Hr as (_ & _ & _ & Hdisc).
  rewrite (Hdisc k). split; by intros ->.
Qed.

(** The ciphertext of every existing record is an initialised handle that
    the contract is allowed to use and that is publicly decryptable. *)
Theorem stored_handle_decryptable s k :
  reachable s -> recordExists s k = true ->
  exists h,
    encryptedAmount (recordAt s k) = Handle h /\ h <> 0
    /\ FHE_isInitialized (encryptedAmount (recordAt s k)) = true
    /\ In (Handle h) (allowedThis s)
    /\ In (Handle h) (publiclyDecryptable s).
Proof.
  intros Hr Hex. apply reachable_ledgerInv in Hr as (Hhandle & _ & _ & _).
  destruct (Hhandle _ _ (recordExists_stored _ _ Hex))
    as (h & Henc & Hnz & Hthis & Hpub).
  exists h. rewrite Henc. simpl. repeat split; try done.
  apply negb_true_iff. by apply Z.eqb_neq.
Qed.

(** The identifier list, the event log and the two permission lists are
    append-only: no call removes or reorders an entry, so a permission once
    granted is never revoked. *)
Theorem logs_append_only cs s : extends (runCalls cs s) s.
Proof.
  revert s. induction cs as [|c cs IH]; intros s; simpl.
  - repeat split; exists []; by rewrite app_nil_r.
  - destruct (IH (step s c)) as ([l1 H1] & [l2 H2] & [l3 H3] & [l4 H4]).
    unfold extends.
    change (fold_left step cs (step s c)) with (runCalls cs (step s c)).
    rewrite H1, H2, H3, H4.
    step_inversion inputVerifier kmsVerifier s c.
    + repeat split; eauto.
    + simpl. rewrite <- !app_assoc. repeat split; eauto.
    + simpl. rewrite <- !app_assoc. repeat split; eauto.
Qed.

(** Creation followed by a read: under a non-empty identifier
    [getDebtRecord] returns what was just stored; under the empty identifier
    the record is stored but [getDebtRecord] does not find it, while the
    generated getter [debtRecords] returns it, handle included. *)
Theorem create_then_read env id ext p rate months s s' :
  snd (createDebtRecord env id ext p rate months s) = inr (tt, s') ->
  (id <> EmptyString ->
     returned (getDebtRecord id) s'
     = inr (id, rate, months, msg_sender env, block_timestamp env, false, 0))
  /\ (id = EmptyString ->
      returned (getDebtRecord id) s' = inl (Revert ERR_MISSING))
  /\ exists h,
       inputVerifier (msg_sender env) ext p = Some h
       /\ returned (public_debtRecords id) s'
          = inr (id, Handle h, rate, months, msg_sender env,
                 block_timestamp env, 0, false).
Proof.
  rewrite createDebtRecord_eval; simpl.
  destruct (recordExists s id); simpl; [discriminate|].
  destruct (inputVerifier (msg_sender env) ext p) as [h|]; simpl;
    [|discriminate].
  destruct (h =? 0) eqn:Hz; simpl; [discriminate|].
  intros [= <-]. unfold returned. rewrite getDebtRecord_eval.
  unfold recordExists. rewrite recordAt_afterCreate_eq. simpl.
  split; [|split].
  - intros Hne. apply bytesLength_pos in Hne. by rewrite Hne.
  - by intros ->.
  - exists h. split; [done|].
    unfold public_debtRecords, bind, readRecord, bind; simpl.
    by rewrite recordAt_afterCreate_eq.
Qed.

End Ledger.

(** ** The generated getters *)


(** [debtRecords(id)] never reverts and never changes the state; it returns
    the fields [getDebtRecord] returns whenever that function returns, plus
    the ciphertext handle, and the all-zero record for an identifier that
    was never written. *)
Theorem public_debtRecords_total id s :
  exists i e rate term who date amount ver,
    public_debtRecords id s
    = ([], inr ((i, e, rate, term, who, date, amount, ver), s))
    /\ (recordExists s id = true ->
        returned (getDebtRecord id) s
        = inr (i, rate, term, who, date, ver, amount))
    /\ (debtRecords s !! id = None ->
        (i, e, rate, term, who, date, amount, ver)
        = (EmptyString, Handle 0, 0, 0, 0, 0, 0, false)).
Proof.
  exists (debtId (recordAt s id)), (encryptedAmount (recordAt s id)),
    (interestRate (recordAt s id)), (termMonths (recordAt s id)),
    (owner (recordAt s id)), (creationDate (recordAt s id)),
    (decryptedAmount (recordAt s id)), (isVerified (recordAt s id)).
  split; [reflexivity|]. split.
  - intros Hex. unfold returned. rewrite getDebtRecord_eval, Hex. done.
  - intros Hnone. unfold recordAt. by rewrite Hnone.
Qed.

(** ** Degenerate scalings in the amortization formula *)

(** An annual rate below 12 has the integer quotient 0, so the payment
    expression multiplies the encrypted amount by an encrypted 0. *)
Theorem monthlyPayment_low_rate id s :
  recordExists s id = true ->
  0 <= interestRate (recordAt s id) < 12 ->
  termMonths (recordAt s id) * 1000 <= UINT256_MAX ->
  returned (calculateMonthlyPayment id) s
  = inr (FHE_div
           (FHE_mul (encryptedAmount (recordAt s id)) (FHE_encrypt 0))
           (FHE_sub (FHE_encrypt 1000)
                    (FHE_exp
                       (FHE_add (FHE_encrypt 1000) (FHE_encrypt 0))
                       (FHE_sub (FHE_encrypt 0)
                                (FHE_encrypt
                                   ((termMonths (recordAt s id) * 1000)
                                    mod 2 ^ 32)))))).
Proof.
  intros Hex Hrate Hterm. unfold returned.
  rewrite calculateMonthlyPayment_eval; simpl. rewrite Hex; simpl.
  rewrite (Z.div_small _ 12 Hrate). simpl (0 * 1000 <=? UINT256_MAX).
  cbv iota. apply Z.leb_le in Hterm. rewrite Hterm. reflexivity.
Qed.

(** Two records whose rates have the same integer twelfth and whose terms
    differ by a multiple of 2^29 months get the same scaled rate and the
    same scaled term: their payment expressions differ in the ciphertext
    handle only. *)
Theorem monthlyPayment_aliasing id1 id2 n s :
  recordExists s id1 = true -> recordExists s id2 = true ->
  interestRate (recordAt s id2) / 12 = interestRate (recordAt s id1) / 12 ->
  termMonths (recordAt s id2) = termMonths (recordAt s id1) + 2 ^ 29 * n ->
  interestRate (recordAt s id1) / 12 * 1000 <= UINT256_MAX ->
  termMonths (recordAt s id1) * 1000 <= UINT256_MAX ->
  termMonths (recordAt s id2) * 1000 <= UINT256_MAX ->
  exists rateFixed termFixed,
    returned (calculateMonthlyPayment id1) s
    = inr (paymentExpr (encryptedAmount (recordAt s id1)) rateFixed termFixed)
    /\ returned (calculateMonthlyPayment id2) s
       = inr (paymentExpr (encryptedAmount (recordAt s id2))
                          rateFixed termFixed).
Proof.
  intros Hex1 Hex2 Hrate Hterm Hr1 Ht1 Ht2.
  exists (uint32 (interestRate (recordAt s id1) / 12 * 1000)),
    (uint32 (termMonths (recordAt s id1) * 1000)).
  unfold returned. rewrite !calculateMonthlyPayment_eval; simpl.
  rewrite Hex1, Hex2; simpl. rewrite Hrate.
  apply Z.leb_le in Hr1. rewrite Hr1.
  pose proof Ht1 as Ht1'. pose proof Ht2 as Ht2'.
  apply Z.leb_le in Ht1', Ht2'. rewrite Ht1', Ht2'. split; [done|].
  unfold uint32. rewrite Hterm.
  replace ((termMonths (recordAt s id1) + 2 ^ 29 * n) * 1000)
    with (termMonths (recordAt s id1) * 1000 + (125 * n) * 2 ^ 32) by lia.
  by rewrite Z.mod_add.
Qed.

(** ** The further theorems at work on the sample ledgers *)

(** [Sample.ledgerThree] is reached by four calls. *)
Lemma ledgerThree_reachable :
  reachable Sample.admitAll Sample.signAll Sample.ledgerThree.
Proof.
  exists [Sample.createD1; Sample.verifyD1; Sample.createD2; Sample.createD3].
  reflexivity.
Defined.

(** Creating "d2" on the ledger that holds the verified "d1". *)
Lemma createDebtRecord_effect_witness :
  snd (createDebtRecord Sample.admitAll Sample.bob Sample.d2 42
                        Sample.noProof 19 (24 + 2 ^ 29)
                        Sample.ledgerD1Verified)
  = inr (tt, Sample.ledgerTwo)
  /\ debtIds Sample.ledgerTwo = debtIds Sample.ledgerD1Verified ++ [Sample.d2].
Proof.
  assert (snd (createDebtRecord Sample.admitAll Sample.bob Sample.d2 42
                                Sample.noProof 19 (24 + 2 ^ 29)
                                Sample.ledgerD1Verified)
          = inr (tt, Sample.ledgerTwo)) as Hok.
  { vm_compute. reflexivity. }
  destruct (createDebtRecord_effect _ _ _ _ _ _ _ _ _ Hok)
    as (h & _ & _ & _ & _ & Hids & _).
  split; [exact Hok|exact Hids].
Defined.

(** The same creation, read back with [getDebtRecord]. *)
Lemma create_then_read_witness :
  snd (createDebtRecord Sample.admitAll Sample.bob Sample.d2 42
                        Sample.noProof 19 (24 + 2 ^ 29)
                        Sample.ledgerD1Verified)
  = inr (tt, Sample.ledgerTwo)
  /\ returned (getDebtRecord Sample.d2) Sample.ledgerTwo
     = inr (Sample.d2, 19, 24 + 2 ^ 29, 177, 1700000600, false, 0).
Proof.
  assert (snd (createDebtRecord Sample.admitAll Sample.bob Sample.d2 42
                                Sample.noProof 19 (24 + 2 ^ 29)
                                Sample.ledgerD1Verified)
          = inr (tt, Sample.ledgerTwo)) as Hok.
  { vm_compute. reflexivity. }
  destruct (create_then_read _ _ _ _ _ _ _ _ _ Hok) as (Hread & _ & _).
  split; [exact Hok|]. apply Hread. discriminate.
Defined.

(** "d1" stays as verified through the creation of "d2" and "d3" and a
    further verification attempt. *)
Lemma verified_record_final_witness :
  reachable Sample.admitAll Sample.signAll Sample.ledgerD1Verified
  /\ isVerified (recordAt Sample.ledgerD1Verified Sample.d1) = true
  /\ recordAt (runCalls Sample.admitAll Sample.signAll
                        [Sample.createD2; Sample.createD3; Sample.verifyD1]
                        Sample.ledgerD1Verified) Sample.d1
     = recordAt Sample.ledgerD1Verified Sample.d1.
Proof.
  assert (reachable Sample.admitAll Sample.signAll Sample.ledgerD1Verified)
    as Hr.
  { exists [Sample.createD1; Sample.verifyD1]. reflexivity. }
  assert (isVerified (recordAt Sample.ledgerD1Verified Sample.d1) = true)
    as Hv.
  { vm_compute. reflexivity. }
  split; [exact Hr|]. split; [exact Hv|].
  exact (verified_record_final Sample.admitAll Sample.signAll
           [Sample.createD2; Sample.createD3; Sample.verifyD1]
           Sample.ledgerD1Verified Sample.d1 Hr Hv).
Defined.

(** The terms of "d1" survive its verification and two creations. *)
Lemma existing_record_terms_fixed_witness :
  recordExists Sample.ledgerD1 Sample.d1 = true
  /\ encryptedAmount
       (recordAt (runCalls Sample.admitAll Sample.signAll
                           [Sample.verifyD1; Sample.createD2; Sample.createD3]
                           Sample.ledgerD1) Sample.d1)
     = encryptedAmount (recordAt Sample.ledgerD1 Sample.d1).
Proof.
  assert (recordExists Sample.ledgerD1 Sample.d1 = true) as Hex.
  { vm_compute. reflexivity. }
  destruct (existing_record_terms_fixed Sample.admitAll Sample.signAll
              [Sample.verifyD1; Sample.createD2; Sample.createD3]
              Sample.ledgerD1 Sample.d1 Hex) as (_ & _ & Henc & _).
  split; [exact Hex|exact Henc].
Defined.

Lemma monthlyPayment_stable_witness :
  recordExists Sample.ledgerD1 Sample.d1 = true
  /\ returned (calculateMonthlyPayment Sample.d1)
              (runCalls Sample.admitAll Sample.signAll
                        [Sample.verifyD1; Sample.createD2; Sample.createD3]
                        Sample.ledgerD1)
     = returned (calculateMonthlyPayment Sample.d1) Sample.ledgerD1.
Proof.
  assert (recordExists Sample.ledgerD1 Sample.d1 = true) as Hex.
  { vm_compute. reflexivity. }
  split; [exact Hex|].
  exact (monthlyPayment_stable Sample.admitAll Sample.signAll
           [Sample.verifyD1; Sample.createD2; Sample.createD3]
           Sample.ledgerD1 Sample.d1 Hex).
Defined.

Lemma listed_iff_exists_witness :
  reachable Sample.admitAll Sample.signAll Sample.ledgerThree
  /\ Sample.d2 <> EmptyString
  /\ (In Sample.d2 (debtIds Sample.ledgerThree)
      <-> recordExists Sample.ledgerThree Sample.d2 = true).
Proof.
  assert (Sample.d2 <> EmptyString) as Hne by discriminate.
  split; [exact ledgerThree_reachable|]. split; [exact Hne|].
  exact (proj1 (listed_iff_exists Sample.admitAll Sample.signAll
                  Sample.ledgerThree Sample.d2 ledgerThree_reachable Hne)).
Defined.

Lemma getDebtRecord_well_formed_witness :
  returned (getDebtRecord Sample.d1) Sample.ledgerThree
  = inr (Sample.d1, 12, 24, 161, 1700000000, true, 1000)
  /\ In Sample.d1 (debtIds Sample.ledgerThree)
  /\ 0 <= 1000 <= UINT32_MAX.
Proof.
  assert (returned (getDebtRecord Sample.d1) Sample.ledgerThree
          = inr (Sample.d1, 12, 24, 161, 1700000000, true, 1000)) as Hget.
  { vm_compute. reflexivity. }
  destruct (getDebtRecord_well_formed Sample.admitAll Sample.signAll
              Sample.ledgerThree Sample.d1 _ _ _ _ _ _ _
              ledgerThree_reachable Hget) as (_ & _ & Hin & Hrange & _).
  split; [exact Hget|]. split; [exact Hin|exact Hrange].
Defined.

Lemma creation_events_mirror_ids_witness :
  returned getAllDebtIds Sample.ledgerThree
  = inr (createdEventIds (events Sample.ledgerThree)).
Proof.
  exact (creation_events_mirror_ids Sample.admitAll Sample.signAll
           Sample.ledgerThree ledgerThree_reachable).
Defined.

Lemma disclosed_at_most_once_witness :
  isVerified (recordAt Sample.ledgerThree Sample.d1) = true
  /\ disclosuresOf Sample.d1 (events Sample.ledgerThree)
     = [decryptedAmount (recordAt Sample.ledgerThree Sample.d1)]
  /\ isVerified (recordAt Sample.ledgerThree Sample.d2) = false
  /\ disclosuresOf Sample.d2 (events Sample.ledgerThree) = [].
Proof.
  assert (isVerified (recordAt Sample.ledgerThree Sample.d1) = true) as Hv.
  { vm_compute. reflexivity. }
  assert (isVerified (recordAt Sample.ledgerThree Sample.d2) = false) as Hn.
  { vm_compute. reflexivity. }
  split; [exact Hv|]. split.
  - exact (proj1 (disclosed_at_most_once Sample.admitAll Sample.signAll
                    Sample.ledgerThree Sample.d1 ledgerThree_reachable) Hv).
  - split; [exact Hn|].
    exact (proj2 (disclosed_at_most_once Sample.admitAll Sample.signAll
                    Sample.ledgerThree Sample.d2 ledgerThree_reachable) Hn).
Defined.

Lemma stored_handle_decryptable_witness :
  recordExists Sample.ledgerThree Sample.d3 = true
  /\ exists h,
       encryptedAmount (recordAt Sample.ledgerThree Sample.d3) = Handle h
       /\ In (Handle h) (publiclyDecryptable Sample.ledgerThree).
Proof.
  assert (recordExists Sample.ledgerThree Sample.d3 = true) as Hex.
  { vm_compute. reflexivity. }
  destruct (stored_handle_decryptable Sample.admitAll Sample.signAll
              Sample.ledgerThree Sample.d3 ledgerThree_reachable Hex)
    as (h & Henc & _ & _ & _ & Hpub).
  split; [exact Hex|]. exists h. split; [exact Henc|exact Hpub].
Defined.

(** "d3" has the annual rate 5. *)
Lemma monthlyPayment_low_rate_witness :
  recordExists Sample.ledgerThree Sample.d3 = true
  /\ 0 <= interestRate (recordAt Sample.ledgerThree Sample.d3) < 12
  /\ returned (calculateMonthlyPayment Sample.d3) Sample.ledgerThree
     = inr (paymentExpr (encryptedAmount (recordAt Sample.ledgerThree
                                                   Sample.d3))
                        0
                        ((termMonths (recordAt Sample.ledgerThree Sample.d3)
                          * 1000) mod 2 ^ 32)).
Proof.
  assert (recordExists Sample.ledgerThree Sample.d3 = true) as Hex.
  { vm_compute. reflexivity. }
  assert (0 <= interestRate (recordAt Sample.ledgerThree Sample.d3) < 12)
    as Hrate.
  { vm_compute. split; [discriminate|reflexivity]. }
  split; [exact Hex|]. split; [exact Hrate|].
  apply (monthlyPayment_low_rate Sample.d3 Sample.ledgerThree Hex Hrate).
  apply Z.leb_le. vm_compute. reflexivity.
Defined.

(** "d1" (rate 12, term 24) and "d2" (rate 19, term 24 + 2^29). *)
Lemma monthlyPayment_aliasing_witness :
  exists rateFixed termFixed,
    returned (calculateMonthlyPayment Sample.d1) Sample.ledgerThree
    = inr (paymentExpr (encryptedAmount (recordAt Sample.ledgerThree
                                                  Sample.d1))
                       rateFixed termFixed)
    /\ returned (calculateMonthlyPayment Sample.d2) Sample.ledgerThree
       = inr (paymentExpr (encryptedAmount (recordAt Sample.ledgerThree
                                                     Sample.d2))
                          rateFixed termFixed).
Proof.
  apply (monthlyPayment_aliasing Sample.d1 Sample.d2 1 Sample.ledgerThree).
  - vm_compute. reflexivity.
  - vm_compute. reflexivity.
  - vm_compute. reflexivity.
  - vm_compute. reflexivity.
  - apply Z.leb_le. vm_compute. reflexivity.
  - apply Z.leb_le. vm_compute. reflexivity.
  - apply Z.leb_le. vm_compute. reflexivity.
Defined.
